(** * deep-rename-replace: a shallow embedding of [deep-rename-replace.js]

    The script expands a search phrase into casing/delimiter variants,
    replaces every literal occurrence of a variant inside file contents and
    file/folder names by a first-letter case-adjusted replacement, and walks a
    directory tree doing so.

    Strings are JavaScript strings: sequences of UTF-16 code units.  The
    regular expressions of the script are kept as regular expressions and run
    by a small backtracking matcher written after ECMAScript's semantics of
    the fragment the script uses.  [String.prototype.toUpperCase] and
    [toLowerCase] are the runtime's Unicode tables: they are parameters of the
    development.  The file system is an interface whose operations may throw;
    the script's [try]/[catch] and [process.exit] are an outcome monad over a
    world that holds the file system and the chronological trace of file-system
    operations and console lines. *)

From Stdlib Require Import String Ascii List NArith Bool Lia Arith.
Import ListNotations.

Set Implicit Arguments.

(* ================================================================== *)
(** * JavaScript strings *)

(** A UTF-16 code unit. *)
Definition codeunit := N.

(** A JavaScript string value. *)
Definition jsstring := list codeunit.

(** ASCII literals of the source, as code-unit sequences. *)
Definition js (s : string) : jsstring :=
  map N_of_ascii (list_ascii_of_string s).

(** [a === b] on strings. *)
Fixpoint jsstring_eqb (a b : jsstring) : bool :=
  match a, b with
  | [], [] => true
  | x :: a', y :: b' => N.eqb x y && jsstring_eqb a' b'
  | _, _ => false
  end.

(** [s.length === 0] *)
Definition isEmptyString (s : jsstring) : bool := Nat.eqb (length s) 0.

(** A string used as a condition: only the empty string is falsy. *)
Definition truthy (s : jsstring) : bool := negb (isEmptyString s).

(** [s[0]] as a string of one code unit (of a string that is not empty). *)
Definition charAt0 (s : jsstring) : jsstring := firstn 1 s.

(** [s.slice(1)] *)
Definition slice1 (s : jsstring) : jsstring := skipn 1 s.

Definition inRange (lo hi c : codeunit) : bool := N.leb lo c && N.leb c hi.

Local Open Scope N_scope.

(** ECMAScript WhiteSpace and LineTerminator code points: what [\s] matches
    and what [trim] removes. *)
Definition isLineTerminator (c : codeunit) : bool :=
  existsb (N.eqb c) [10; 13; 8232; 8233]%N.

Definition isWhiteSpace (c : codeunit) : bool :=
  existsb (N.eqb c) [9; 11; 12; 32; 160; 5760; 8239; 8287; 12288; 65279]%N
  || inRange 8192 8202 c
  || isLineTerminator c.

(** [.] without the [s] flag: anything but a line terminator. *)
Definition isDot (c : codeunit) : bool := negb (isLineTerminator c).

(** [\w]: [A-Za-z0-9_]. *)
Definition isWordChar (c : codeunit) : bool :=
  inRange 97 122 c || inRange 65 90 c || inRange 48 57 c || N.eqb c 95.

Definition backslash : codeunit := 92.

(** ECMAScript SyntaxCharacter: [^ $ \ . * + ? ( ) [ ] { } |]. *)
Definition isSyntaxCharacter (c : codeunit) : bool :=
  existsb (N.eqb c) (js "^$.+?[]{}|" ++ js "*" ++ js "(" ++ js ")" ++ [backslash]).

Local Close Scope N_scope.

(** [s.trim()] *)
Fixpoint trimStart (s : jsstring) : jsstring :=
  match s with
  | c :: s' => if isWhiteSpace c then trimStart s' else s
  | [] => []
  end.

Definition trim (s : jsstring) : jsstring :=
  rev (trimStart (rev (trimStart s))).

(** [a.startsWith(p)], used to state what a literal pattern matches. *)
Fixpoint isPrefix (p s : jsstring) : bool :=
  match p, s with
  | [], _ => true
  | x :: p', y :: s' => N.eqb x y && isPrefix p' s'
  | _ :: _, [] => false
  end.

(* ================================================================== *)
(** * Regular expressions: the fragment the script uses *)

Inductive regex : Type :=
| Empty                                (* the empty pattern, [(?:)] *)
| Class (p : codeunit -> bool)         (* one code unit: a pattern character, [.], [\s], [\w], a [[...]] class *)
| LineStart                            (* [^] without the [m] flag *)
| WordBoundary                         (* [\b] *)
| Seq (r1 r2 : regex)
| Alt (r1 r2 : regex)
| Plus (p : codeunit -> bool)          (* greedy [+] over a one-unit class *)
| Group (r : regex).                   (* a capturing group *)

(** The part of [s] consumed when the input that remains is [rest]. *)
Definition consumed (s rest : jsstring) : jsstring :=
  firstn (length s - length rest) s.

(** A matcher state: the code unit before the current index ([None] at index
    0), the input from the current index on, and the captures so far.  A
    continuation receives the state after the sub-pattern; [None] is failure,
    which makes the caller backtrack. *)
Definition mresult : Type := (jsstring * list jsstring)%type.
Definition mcont : Type := option codeunit -> jsstring -> list jsstring -> option mresult.

Definition isWordCharAt (c : option codeunit) : bool :=
  match c with Some x => isWordChar x | None => false end.

(** Greedy repetition of a class, zero or more times, longest first. *)
Fixpoint starClass (p : codeunit -> bool) (prev : option codeunit)
  (s : jsstring) (caps : list jsstring) (k : mcont) : option mresult :=
  match s with
  | c :: s' =>
      if p c then
        match starClass p (Some c) s' caps k with
        | Some r => Some r
        | None => k prev s caps
        end
      else k prev s caps
  | [] => k prev s caps
  end.

Fixpoint matchRegex (r : regex) (prev : option codeunit) (s : jsstring)
  (caps : list jsstring) (k : mcont) : option mresult :=
  match r with
  | Empty => k prev s caps
  | Class p =>
      match s with
      | c :: s' => if p c then k (Some c) s' caps else None
      | [] => None
      end
  | LineStart =>
      match prev with
      | None => k prev s caps
      | Some _ => None
      end
  | WordBoundary =>
      if xorb (isWordCharAt prev) (isWordCharAt (hd_error s))
      then k prev s caps else None
  | Seq r1 r2 =>
      matchRegex r1 prev s caps (fun prev' s' caps' => matchRegex r2 prev' s' caps' k)
  | Alt r1 r2 =>
      match matchRegex r1 prev s caps k with
      | Some x => Some x
      | None => matchRegex r2 prev s caps k
      end
  | Plus p =>
      match s with
      | c :: s' => if p c then starClass p (Some c) s' caps k else None
      | [] => None
      end
  | Group r1 =>
      matchRegex r1 prev s caps
        (fun prev' s' caps' => k prev' s' (caps' ++ [consumed s s']))
  end.

(** One attempt at the current index: the input left after the match and the
    captures. *)
Definition matchAt (r : regex) (prev : option codeunit) (s : jsstring)
  : option mresult :=
  matchRegex r prev s [] (fun _ s' caps => Some (s', caps)).

(** What a global scan sees, in order: a code unit outside every match, or a
    match with its captures. *)
Inductive piece : Type :=
| Keep (c : codeunit)
| Hit (m : jsstring) (caps : list jsstring).

(** The loop of a regular expression with the [g] flag over a string
    ([RegExp.prototype[Symbol.replace]] and [[Symbol.match]]): [lastIndex]
    starts at 0; a match is tried at [lastIndex] and then at each later index;
    after a match [lastIndex] is its end, or one more when the match is
    empty.  [skip] counts the code units of the last match still to pass. *)
Fixpoint scan (r : regex) (skip : nat) (prev : option codeunit) (s : jsstring)
  : list piece :=
  match skip with
  | S n =>
      match s with
      | [] => []
      | c :: s' => scan r n (Some c) s'
      end
  | O =>
      match matchAt r prev s with
      | Some (rest, caps) =>
          let m := consumed s rest in
          Hit m caps ::
            match s with
            | [] => []
            | c :: s' =>
                match m with
                | [] => Keep c :: scan r 0 (Some c) s'
                | _ :: m' => scan r (length m') (Some c) s'
                end
            end
      | None =>
          match s with
          | [] => []
          | c :: s' => Keep c :: scan r 0 (Some c) s'
          end
      end
  end.

Definition matchedOf (p : piece) : list jsstring :=
  match p with Keep _ => [] | Hit m _ => [m] end.

(** [s.match(regex)] with the [g] flag: the array of matches, or [null]. *)
Definition String_match (r : regex) (s : jsstring) : option (list jsstring) :=
  match flat_map matchedOf (scan r 0 None s) with
  | [] => None
  | l => Some l
  end.

(** [s.replace(regex, fn)] with the [g] flag and a function: [fn] receives the
    match and the captures, and its result is inserted as it is. *)
Definition String_replace (r : regex) (fn : jsstring -> list jsstring -> jsstring)
  (s : jsstring) : jsstring :=
  flat_map (fun p => match p with Keep c => [c] | Hit m caps => fn m caps end)
           (scan r 0 None s).

(** A replacement string of [s.replace(regex, string)]: [$$] is a dollar
    sign, [$&] the match, any other code unit itself (the script uses no other
    dollar pattern). *)
Definition dollar : codeunit := 36%N.
Definition ampersand : codeunit := 38%N.

Fixpoint getSubstitution (template matched : jsstring) : jsstring :=
  match template with
  | [] => []
  | c :: t =>
      if N.eqb c dollar then
        match t with
        | d :: t' =>
            if N.eqb d ampersand then matched ++ getSubstitution t' matched
            else if N.eqb d dollar then dollar :: getSubstitution t' matched
            else c :: getSubstitution t matched
        | [] => [c]
        end
      else c :: getSubstitution t matched
  end.

Definition String_replace_str (r : regex) (template s : jsstring) : jsstring :=
  String_replace r (fun m _ => getSubstitution template m) s.

(** [new RegExp(source, 'g')] for a source made of pattern characters and
    escaped syntax characters.  [None] stands for any other source: one that
    is a [SyntaxError] (a lone backslash at the end) or that uses syntax
    outside this fragment. *)
Fixpoint RegExp (source : jsstring) : option regex :=
  match source with
  | [] => Some Empty
  | c :: t =>
      if N.eqb c backslash then
        match t with
        | d :: t' =>
            if isSyntaxCharacter d
            then option_map (Seq (Class (N.eqb d))) (RegExp t')
            else None
        | [] => None
        end
      else if isSyntaxCharacter c then None
      else option_map (Seq (Class (N.eqb c))) (RegExp t)
  end.

(** The regular expression literals of the script. *)
Definition re_spaces : regex := Plus isWhiteSpace.                        (* /\s+/g *)
Definition re_spaces_then : regex :=                                      (* /\s+(.)/g *)
  Seq (Plus isWhiteSpace) (Group (Class isDot)).
Definition re_start_or_spaces_then : regex :=                             (* /(?:^|\s+)(.)/g *)
  Seq (Alt LineStart (Plus isWhiteSpace)) (Group (Class isDot)).
Definition re_word_start : regex := Seq WordBoundary (Class isWordChar).  (* /\b\w/g *)
Definition isSpecial (c : codeunit) : bool :=                             (* [.*+?^${}()|[\]\\] *)
  existsb (N.eqb c) (js ".*+?^${}" ++ js "()|[]" ++ [backslash]).
Definition re_special : regex := Class isSpecial.                         (* /[.*+?^${}()|[\]\\]/g *)

(* ================================================================== *)
(** * Arrays and sets of strings *)

(** [array.push(x)] *)
Definition push (A : Type) (l : list A) (x : A) : list A := l ++ [x].

(** [array.includes(x)] on strings. *)
Definition includes (l : list jsstring) (x : jsstring) : bool :=
  existsb (jsstring_eqb x) l.

(** A [Set] of strings is its elements in insertion order; [add] of an
    element already present changes nothing. *)
Definition Set_add (s : list jsstring) (x : jsstring) : list jsstring :=
  if includes s x then s else s ++ [x].

(** [[...new Set(array)]] *)
Definition Set_of_array (l : list jsstring) : list jsstring :=
  fold_left Set_add l [].

(* ================================================================== *)
(** * The ASCII part of the Unicode case mappings *)

Definition isAscii (c : codeunit) : bool := N.ltb c 128%N.

Definition upper_cu (c : codeunit) : codeunit :=
  if inRange 97%N 122%N c then (c - 32)%N else c.

Definition lower_cu (c : codeunit) : codeunit :=
  if inRange 65%N 90%N c then (c + 32)%N else c.

(** Case mappings that are right on every string of ASCII code units. *)
Definition asciiUpperCase (s : jsstring) : jsstring := map upper_cu s.
Definition asciiLowerCase (s : jsstring) : jsstring := map lower_cu s.

(** What the development assumes of [toUpperCase] and [toLowerCase] when a
    claim is about ASCII text: on ASCII strings they map [a-z] and [A-Z] and
    leave every other code unit. *)
Definition ascii_faithful (up lo : jsstring -> jsstring) : Prop :=
  forall s, forallb isAscii s = true ->
    up s = asciiUpperCase s /\ lo s = asciiLowerCase s.

(** The first code unit of [s], if any, is ASCII. *)
Definition firstAscii (s : jsstring) : bool :=
  match s with
  | [] => true
  | c :: _ => isAscii c
  end.

(** Every match of the global scan of [s] for [r], and its first capture,
    is ASCII. *)
Definition hitsAscii (r : regex) (s : jsstring) : bool :=
  forallb (fun p => match p with
                    | Keep _ => true
                    | Hit m caps => forallb isAscii m
                                    && forallb isAscii (nth 0 caps [])
                    end)
          (scan r 0 None s).

(* ================================================================== *)
(** * Paths, the file system, the console *)

(** A resolved path is the sequence of its components below the root of the
    file system: [path.resolve] returns an absolute, normalised path, and
    [path.join], [path.dirname] and [path.basename] compute on components.
    Separators are those of POSIX ([path.posix]); a trailing separator, which
    [path.join] keeps and the other two ignore, is not recorded. *)
Definition path := list jsstring.

Definition slash : codeunit := 47%N.
Definition fullStop : codeunit := 46%N.

(** The segments of [name] between separators. *)
Fixpoint segments (name : jsstring) : list jsstring :=
  match name with
  | [] => [[]]
  | c :: rest =>
      if N.eqb c slash then [] :: segments rest
      else match segments rest with
           | seg :: more => (c :: seg) :: more
           | [] => [[c]]
           end
  end.

(** One segment of [path.normalize] on an absolute path: an empty segment
    and [.] are dropped, [..] removes the component before it (nothing at the
    root), any other segment is a component. *)
Definition normalizeSegment (acc : path) (seg : jsstring) : path :=
  if isEmptyString seg || jsstring_eqb seg [fullStop] then acc
  else if jsstring_eqb seg [fullStop; fullStop] then removelast acc
  else acc ++ [seg].

(** [path.join(dir, name)] for an absolute, normalised [dir]: the segments
    of [name] are normalised after the components of [dir]. *)
Definition path_join (dir : path) (name : jsstring) : path :=
  fold_left normalizeSegment (segments name) dir.

Definition path_basename (p : path) : jsstring := last p [].
Definition path_dirname (p : path) : path := removelast p.

(** A name that is one component: not empty, without a separator, and
    neither [.] nor [..].  The names of directory entries are such names. *)
Definition plainName (name : jsstring) : bool :=
  negb (isEmptyString name)
  && forallb (fun c => negb (N.eqb c slash)) name
  && negb (jsstring_eqb name [fullStop])
  && negb (jsstring_eqb name [fullStop; fullStop]).

Fixpoint path_eqb (a b : path) : bool :=
  match a, b with
  | [], [] => true
  | x :: a', y :: b' => jsstring_eqb x y && path_eqb a' b'
  | _, _ => false
  end.

(** The [message] of a thrown [Error]. *)
Definition error := jsstring.

(** What the script reads of [fs.Stats]. *)
Record Stats : Type := { isDirectory : bool; isFile : bool }.

(** The file system as the script uses it.  An operation that throws leaves
    the file system as it was (a failed write is all-or-nothing). *)
Record FileSystem : Type := {
  FS : Type;
  readFileSync : path -> FS -> error + jsstring;
  writeFileSync : path -> jsstring -> FS -> error + FS;
  renameSync : path -> path -> FS -> error + FS;
  readdirSync : path -> FS -> error + list jsstring;
  statSync : path -> FS -> error + Stats;
  existsSync : path -> FS -> bool;
  (** [path.resolve] against the working directory of the process *)
  path_resolve : jsstring -> path
}.

(** Console lines, by their template. *)
Inductive line : Type :=
| MsgContentReplaced (m r : jsstring)      (* File content: "m" -> "r" *)
| MsgUpdated (p : path)                    (* Updated content in: p *)
| MsgContentError (p : path) (e : error)   (* Error processing file content p: e *)
| MsgNameReplaced (m r : jsstring)         (* File/folder name: "m" -> "r" *)
| MsgRenamed (old new : jsstring)          (* Renamed: old -> new *)
| MsgRenameError (p : path) (e : error)    (* Error renaming p: e *)
| MsgDirectoryError (p : path) (e : error) (* Error processing directory p: e *)
| MsgUsage                                 (* the usage text, lines 236-251 *)
| MsgEmptyReplacement                      (* Replacement text cannot be empty *)
| MsgRootMissing (p : path)                (* Root path does not exist: p *)
| MsgRootNotDirectory (p : path)           (* Root path is not a directory: p *)
| MsgSearching (s : jsstring)
| MsgReplacing (r : jsstring)
| MsgRoot (p : path)
| MsgGenerated (n : nat)
| MsgVariant (i : nat) (v : jsstring)
| MsgStarting
| MsgCompleted.                            (* ... completed in N ms *)

(** What the run does to the outside, in order.  A file-system event records
    the call, whether it returned or threw. *)
Inductive event : Type :=
| FsRead (p : path)
| FsWrite (p : path) (content : jsstring)
| FsRename (src dst : path)
| FsReaddir (p : path)
| FsStat (p : path) (result : error + Stats)
| FsExists (p : path)
| ConsoleLog (l : line)
| ConsoleError (l : line).

Definition isFsEvent (e : event) : bool :=
  match e with
  | ConsoleLog _ | ConsoleError _ => false
  | _ => true
  end.

(** How a computation ends: normally, by a thrown error, by [process.exit],
    or (the recursion of the embedding only) out of fuel. *)
Inductive outcome (A : Type) : Type :=
| Return (a : A)
| Throw (e : error)
| Exit (code : nat)
| OutOfFuel.

Arguments Throw {A} e.
Arguments Exit {A} code.
Arguments OutOfFuel {A}.

(** The world of a run: the file system, and the events so far, oldest
    first. *)
Record World (F : FileSystem) : Type := { fs : FS F; trace : list event }.

(* ================================================================== *)
(** * An in-memory file system *)

Inductive node : Type :=
| FileNode (content : jsstring)
| DirNode.

Definition memstate := list (path * node).

Fixpoint mem_lookup (p : path) (st : memstate) : option node :=
  match st with
  | [] => None
  | (q, n) :: st' => if path_eqb q p then Some n else mem_lookup p st'
  end.

Definition mem_stat (p : path) (st : memstate) : error + Stats :=
  match mem_lookup p st with
  | Some (FileNode _) => inr {| isDirectory := false; isFile := true |}
  | Some DirNode => inr {| isDirectory := true; isFile := false |}
  | None => inl (js "ENOENT")
  end.

(** The last components of the paths directly below [p]. *)
Definition mem_entries (p : path) (st : memstate) : list jsstring :=
  flat_map (fun e : path * node =>
              match fst e with
              | [] => []
              | _ :: _ => if path_eqb (path_dirname (fst e)) p
                          then [path_basename (fst e)] else []
              end) st.

(** [readdirSync]: the entries of a directory, which are file names. *)
Definition mem_readdir (p : path) (st : memstate) : error + list jsstring :=
  match mem_lookup p st with
  | Some DirNode =>
      inr (filter plainName (mem_entries p st))
  | Some (FileNode _) => inl (js "ENOTDIR")
  | None => inl (js "ENOENT")
  end.

Definition mem_read (p : path) (st : memstate) : error + jsstring :=
  match mem_lookup p st with
  | Some (FileNode c) => inr c
  | Some DirNode => inl (js "EISDIR")
  | None => inl (js "ENOENT")
  end.

Definition mem_write (p : path) (c : jsstring) (st : memstate) : error + memstate :=
  match mem_lookup p st with
  | Some (FileNode _) =>
      inr (map (fun e : path * node =>
             if path_eqb (fst e) p then (fst e, FileNode c) else e) st)
  | Some DirNode => inl (js "EISDIR")
  | None =>
      match mem_lookup (path_dirname p) st with
      | Some DirNode => inr (st ++ [(p, FileNode c)])
      | _ => inl (js "ENOENT")
      end
  end.

(** [q] with its prefix [src] replaced by [dst], when [src] is a prefix. *)
Fixpoint reprefix (src dst q : path) : option path :=
  match src, q with
  | [], _ => Some (dst ++ q)
  | x :: src', y :: q' => if jsstring_eqb x y then reprefix src' dst q' else None
  | _ :: _, [] => None
  end.

Definition mem_remove (p : path) (st : memstate) : memstate :=
  filter (fun e : path * node => negb (path_eqb (fst e) p)) st.

Definition mem_move (src dst : path) (st : memstate) : memstate :=
  map (fun e : path * node =>
         match reprefix src dst (fst e) with
         | Some q => (q, snd e)
         | None => e
         end) st.

(** [renameSync] as rename(2): an existing file is replaced by a file and an
    existing empty directory by a directory; a directory that is not empty is
    not replaced, nothing is moved below itself, and a file and a directory do
    not replace each other. *)
Definition mem_rename (src dst : path) (st : memstate) : error + memstate :=
  match mem_lookup src st with
  | None => inl (js "ENOENT")
  | Some n =>
      if path_eqb src dst then inr st
      else if match reprefix src [] dst with Some _ => true | None => false end
      then inl (js "EINVAL")
      else
        match mem_lookup (path_dirname dst) st with
        | Some DirNode =>
            match n, mem_lookup dst st with
            | _, None => inr (mem_move src dst st)
            | FileNode _, Some (FileNode _) =>
                inr (mem_move src dst (mem_remove dst st))
            | FileNode _, Some DirNode => inl (js "EISDIR")
            | DirNode, Some (FileNode _) => inl (js "ENOTDIR")
            | DirNode, Some DirNode =>
                match mem_entries dst st with
                | [] => inr (mem_move src dst (mem_remove dst st))
                | _ :: _ => inl (js "ENOTEMPTY")
                end
            end
        | Some (FileNode _) => inl (js "ENOTDIR")
        | None => inl (js "ENOENT")
        end
  end.

Definition mem_exists (p : path) (st : memstate) : bool :=
  match mem_lookup p st with Some _ => true | None => false end.

(** The in-memory file system; the working directory of the process is
    the root of the disk. *)
Definition memfs : FileSystem := {|
  FS := memstate;
  readFileSync := mem_read;
  writeFileSync := mem_write;
  renameSync := mem_rename;
  readdirSync := mem_readdir;
  statSync := mem_stat;
  existsSync := mem_exists;
  path_resolve := path_join []
|}.

(** Three small disks to run the script on: an empty one; one whose
    directory to process is itself named [dist]; a project with a directory
    [foo] and a [node_modules]. *)
Definition directoryStats : Stats := {| isDirectory := true; isFile := false |}.
Definition fileStats : Stats := {| isDirectory := false; isFile := true |}.

Definition emptyWorld : World memfs :=
  {| fs := [([], DirNode)] : FS memfs; trace := [] |}.

Definition distWorld : World memfs :=
  {| fs := [([], DirNode);
            ([js "dist"], DirNode);
            ([js "dist"; js "a.txt"], FileNode (js "x"))] : FS memfs;
     trace := [] |}.

Definition projectWorld : World memfs :=
  {| fs := [([], DirNode);
            ([js "proj"], DirNode);
            ([js "proj"; js "foo"], DirNode);
            ([js "proj"; js "foo"; js "a.txt"], FileNode (js "foo"));
            ([js "proj"; js "node_modules"], DirNode);
            ([js "proj"; js "node_modules"; js "foo.js"], FileNode (js "foo"))]
           : FS memfs;
     trace := [] |}.

(* ================================================================== *)
(** * The pure functions of the script *)

Section Script.

(** [String.prototype.toUpperCase] and [String.prototype.toLowerCase]. *)
Variable toUpperCase : jsstring -> jsstring.
Variable toLowerCase : jsstring -> jsstring.

(** [generateVariants(str)], lines 11-52: the array [variants] as it is
    before line 51, and the function. *)
Definition variantForms (str : jsstring) : list jsstring :=
  let variants := [] in
  let variants := push variants str in
  let variants := push variants (toUpperCase str) in
  let variants := push variants (String_replace_str re_spaces (js "_") (toLowerCase str)) in
  let variants := push variants (String_replace_str re_spaces (js "_") (toUpperCase str)) in
  let variants := push variants (String_replace_str re_spaces (js "-") (toLowerCase str)) in
  let variants := push variants (String_replace_str re_spaces (js "-") (toUpperCase str)) in
  let camelCase :=
    String_replace re_spaces_then
      (fun _ caps => toUpperCase (nth 0 caps [])) (toLowerCase str) in
  let variants := push variants camelCase in
  let pascalCase :=
    String_replace_str re_spaces (js "")
      (String_replace re_start_or_spaces_then
         (fun _ caps => toUpperCase (nth 0 caps [])) (toLowerCase str)) in
  let variants := push variants pascalCase in
  let titleCase := String_replace re_word_start (fun letter _ => toUpperCase letter) str in
  let variants := push variants titleCase in
  let variants := push variants (String_replace_str re_spaces (js "") (toLowerCase str)) in
  let variants := push variants (String_replace_str re_spaces (js "") (toUpperCase str)) in
  variants.

Definition generateVariants (str : jsstring) : list jsstring :=
  Set_of_array (variantForms str).

(** [preserveCase(original, replacement)], lines 60-75. *)
Definition preserveCase (original replacement : jsstring) : jsstring :=
  if isEmptyString original then replacement
  else if isEmptyString replacement then replacement
  else
    let firstOriginalChar := charAt0 original in
    let firstReplacementChar := charAt0 replacement in
    if truthy firstOriginalChar
       && jsstring_eqb firstOriginalChar (toUpperCase firstOriginalChar)
       && negb (jsstring_eqb firstOriginalChar (toLowerCase firstOriginalChar))
    then toUpperCase firstReplacementChar ++ slice1 replacement
    else toLowerCase firstReplacementChar ++ slice1 replacement.

(** [shouldIgnoreFolder(folderName)], lines 82-85. *)
Definition ignoredFolders : list jsstring :=
  [js ".git"; js "bin"; js "obj"; js "node_modules"; js "dist"].

Definition shouldIgnoreFolder (folderName : jsstring) : bool :=
  includes ignoredFolders folderName.

(** [escapeRegExp(string)], lines 130-132: the replacement string is a
    backslash followed by [$&]. *)
Definition escapeRegExp (string : jsstring) : jsstring :=
  String_replace_str re_special (backslash :: js "$&") string.

(* ================================================================== *)
(** * The world and the effects of the script *)

Variable F : FileSystem.

Definition world : Type := World F.

Definition M (A : Type) : Type := world -> world * outcome A.

Definition ret (A : Type) (a : A) : M A := fun w => (w, Return a).

Definition bind (A B : Type) (m : M A) (f : A -> M B) : M B :=
  fun w =>
    match m w with
    | (w', Return a) => f a w'
    | (w', Throw e) => (w', Throw e)
    | (w', Exit c) => (w', Exit c)
    | (w', OutOfFuel) => (w', OutOfFuel)
    end.

Notation "x <- m ;; k" := (bind m (fun x => k))
  (at level 61, m at next level, right associativity).
Notation "m ;; k" := (bind m (fun _ => k))
  (at level 61, right associativity).

(** [throw e] *)
Definition throw {A : Type} (e : error) : M A := fun w => (w, Throw e).

(** [try { m } catch (error) { h error }] *)
Definition tryCatch (A : Type) (m : M A) (h : error -> M A) : M A :=
  fun w =>
    match m w with
    | (w', Throw e) => h e w'
    | r => r
    end.

(** [process.exit(code)] *)
Definition process_exit {A : Type} (code : nat) : M A := fun w => (w, Exit code).

Definition emit (e : event) : M unit :=
  fun w => ({| fs := fs w; trace := trace w ++ [e] |}, Return tt).

Definition console_log (l : line) : M unit := emit (ConsoleLog l).
Definition console_error (l : line) : M unit := emit (ConsoleError l).

(** A file-system call that reads: the event, then the value or the throw. *)
Definition fsQuery (A : Type) (e : error + A -> event) (op : FS F -> error + A)
  : M A :=
  fun w =>
    let w' := {| fs := fs w; trace := trace w ++ [e (op (fs w))] |} in
    match op (fs w) with
    | inl err => (w', Throw err)
    | inr a => (w', Return a)
    end.

(** A file-system call that writes: the event, then the new file system or
    the throw. *)
Definition fsUpdate (e : event) (op : FS F -> error + FS F) : M unit :=
  fun w =>
    match op (fs w) with
    | inl err => ({| fs := fs w; trace := trace w ++ [e] |}, Throw err)
    | inr s => ({| fs := s; trace := trace w ++ [e] |}, Return tt)
    end.

Definition fs_readFileSync (p : path) : M jsstring :=
  fsQuery (fun _ => FsRead p) (readFileSync F p).
Definition fs_writeFileSync (p : path) (content : jsstring) : M unit :=
  fsUpdate (FsWrite p content) (writeFileSync F p content).
Definition fs_renameSync (src dst : path) : M unit :=
  fsUpdate (FsRename src dst) (renameSync F src dst).
Definition fs_readdirSync (p : path) : M (list jsstring) :=
  fsQuery (fun _ => FsReaddir p) (readdirSync F p).
Definition fs_statSync (p : path) : M Stats :=
  fsQuery (FsStat p) (statSync F p).
Definition fs_existsSync (p : path) : M bool :=
  fsQuery (fun _ => FsExists p) (fun s => inr (existsSync F p s)).

(** [for (const x of xs) { body }] *)
Fixpoint forOf (A : Type) (xs : list A) (body : A -> M unit) : M unit :=
  match xs with
  | [] => ret tt
  | x :: xs' => body x ;; forOf xs' body
  end.

(** [for (const x of xs) { body }] over the local variables [s] the body
    assigns. *)
Fixpoint forOfVars (A S : Type) (xs : list A) (body : S -> A -> M S) (s : S) : M S :=
  match xs with
  | [] => ret s
  | x :: xs' => s' <- body s x ;; forOfVars xs' body s'
  end.

(** [new RegExp(source, 'g')] *)
Definition new_RegExp (source : jsstring) : M regex :=
  match RegExp source with
  | Some r => ret r
  | None => throw (js "SyntaxError")
  end.

(** The body of the loops at lines 99-111 and 146-158, over the local
    variables ([content], [hasChanges]) there and ([newName], [hasChanges])
    here; [say] is the console line of the callback.  The callback runs once
    per match, in order: it sets [hasChanges], logs, and returns the
    case-adjusted replacement. *)
Definition replaceVariant (say : jsstring -> jsstring -> line)
  (replaceWith : jsstring) (vars : jsstring * bool) (searchText : jsstring)
  : M (jsstring * bool) :=
  let (content, hasChanges) := vars in
  regex <- new_RegExp (escapeRegExp searchText) ;;
  match String_match regex content with
  | Some matches =>
      forOf matches
        (fun m => console_log (say m (preserveCase m replaceWith))) ;;
      ret (String_replace regex (fun m _ => preserveCase m replaceWith) content,
           true)
  | None => ret (content, hasChanges)
  end.

(** The whole loop: every variant in order, each on the text the previous
    one left; [hasChanges] starts [false]. *)
Definition substituteAll (say : jsstring -> jsstring -> line)
  (searchVariants : list jsstring) (replaceWith : jsstring) (text : jsstring)
  : M (jsstring * bool) :=
  forOfVars searchVariants (replaceVariant say replaceWith) (text, false).

(** [replaceInFileContent(filePath, searchVariants, replaceWith)], lines
    94-123. *)
Definition replaceInFileContent (filePath : path)
  (searchVariants : list jsstring) (replaceWith : jsstring) : M bool :=
  tryCatch
    (content <- fs_readFileSync filePath ;;
     vars <- substituteAll MsgContentReplaced searchVariants replaceWith content ;;
     (if snd vars
      then fs_writeFileSync filePath (fst vars) ;;
           console_log (MsgUpdated filePath)
      else ret tt) ;;
     ret (snd vars))
    (fun error =>
       console_error (MsgContentError filePath error) ;;
       ret false).

(** [renameIfMatches(itemPath, searchVariants, replaceWith)], lines 141-173:
    the new path, or [None] for [null]. *)
Definition renameIfMatches (itemPath : path)
  (searchVariants : list jsstring) (replaceWith : jsstring) : M (option path) :=
  let itemName := path_basename itemPath in
  vars <- substituteAll MsgNameReplaced searchVariants replaceWith itemName ;;
  let newName := fst vars in
  if snd vars then
    let newPath := path_join (path_dirname itemPath) newName in
    tryCatch
      (fs_renameSync itemPath newPath ;;
       console_log (MsgRenamed itemName newName) ;;
       ret (Some newPath))
      (fun error =>
         console_error (MsgRenameError itemPath error) ;;
         ret None)
  else ret None.

(** The first loop of [processDirectory], lines 192-203, over the local
    arrays ([directories], [files]). *)
Definition classifyItem (dirPath : path) (vars : list path * list path)
  (item : jsstring) : M (list path * list path) :=
  let (directories, files) := vars in
  let fullPath := path_join dirPath item in
  stats <- fs_statSync fullPath ;;
  if isDirectory stats then
    if negb (shouldIgnoreFolder item)
    then ret (push directories fullPath, files)
    else ret (directories, files)
  else if isFile stats then ret (directories, push files fullPath)
  else ret (directories, files).

(** The body of the loop over [files], lines 206-212. *)
Definition processFile (filePath : path) (searchVariants : list jsstring)
  (replaceWith : jsstring) : M unit :=
  replaceInFileContent filePath searchVariants replaceWith ;;
  renameIfMatches filePath searchVariants replaceWith ;;
  ret tt.

(** [processDirectory(dirPath, searchVariants, replaceWith)], lines 181-227.
    [fuel] bounds the depth of the recursion. *)
Fixpoint processDirectory (fuel : nat) (dirPath : path)
  (searchVariants : list jsstring) (replaceWith : jsstring) : M unit :=
  match fuel with
  | O => fun w => (w, OutOfFuel)
  | S fuel' =>
      tryCatch
        (items <- fs_readdirSync dirPath ;;
         vars <- forOfVars items (classifyItem dirPath) ([], []) ;;
         let directories := fst vars in
         let files := snd vars in
         forOf files
           (fun filePath => processFile filePath searchVariants replaceWith) ;;
         forOf directories
           (fun dirPath' =>
              newDirPath <- renameIfMatches dirPath' searchVariants replaceWith ;;
              let pathToProcess :=
                match newDirPath with Some p => p | None => dirPath' end in
              processDirectory fuel' pathToProcess searchVariants replaceWith))
        (fun error =>
           console_error (MsgDirectoryError dirPath error) ;;
           ret tt)
  end.

(** [array.forEach((x, index) => ...)] *)
Fixpoint forEachIndexed (A : Type) (index : nat) (xs : list A)
  (body : A -> nat -> M unit) : M unit :=
  match xs with
  | [] => ret tt
  | x :: xs' => body x index ;; forEachIndexed (S index) xs' body
  end.

(** [main()], lines 232-294; [args] is [process.argv.slice(2)]. *)
Definition main (fuel : nat) (args : list jsstring) : M unit :=
  (if length args <? 3
   then console_log MsgUsage ;; process_exit 1
   else ret tt) ;;
  let rootPath := path_resolve F (nth 0 args []) in
  let searchText := nth 1 args [] in
  let replaceWith := nth 2 args [] in
  (if negb (truthy (trim replaceWith))
   then console_error MsgEmptyReplacement ;; process_exit 1
   else ret tt) ;;
  rootExists <- fs_existsSync rootPath ;;
  (if negb rootExists
   then console_error (MsgRootMissing rootPath) ;; process_exit 1
   else ret tt) ;;
  rootStats <- fs_statSync rootPath ;;
  (if negb (isDirectory rootStats)
   then console_error (MsgRootNotDirectory rootPath) ;; process_exit 1
   else ret tt) ;;
  console_log (MsgSearching searchText) ;;
  console_log (MsgReplacing replaceWith) ;;
  console_log (MsgRoot rootPath) ;;
  let searchVariants := generateVariants searchText in
  console_log (MsgGenerated (length searchVariants)) ;;
  forEachIndexed 0 searchVariants
    (fun variant index => console_log (MsgVariant (index + 1) variant)) ;;
  console_log MsgStarting ;;
  processDirectory fuel rootPath searchVariants replaceWith ;;
  console_log MsgCompleted.

(* ================================================================== *)
(** * The specification's wording, as definitions to compare with *)

(** Keep the first occurrence of every string, in order. *)
Fixpoint keepFirst (l : list jsstring) : list jsstring :=
  match l with
  | [] => []
  | x :: l' => x :: filter (fun y => negb (jsstring_eqb x y)) (keepFirst l')
  end.

(** An uppercase letter: a character that has distinct uppercase and
    lowercase forms and equals its own uppercase form. *)
Definition isUppercaseLetter (c : codeunit) : bool :=
  negb (jsstring_eqb (toUpperCase [c]) (toLowerCase [c]))
  && jsstring_eqb [c] (toUpperCase [c]).

(** The case preservation rule, by cases on the match and the replacement. *)
Definition casePreservationRule (m r : jsstring) : jsstring :=
  match m, r with
  | [], _ => r
  | _ :: _, [] => r
  | c :: _, d :: rest =>
      if isUppercaseLetter c then toUpperCase [d] ++ rest
      else toLowerCase [d] ++ rest
  end.

(** The pattern that matches the string [v] and nothing else. *)
Definition literal (v : jsstring) : regex :=
  fold_right (fun c r => Seq (Class (N.eqb c)) r) Empty v.

(** [v] occurs in [s] at some index. *)
Fixpoint occursIn (v s : jsstring) : bool :=
  isPrefix v s
  || match s with
     | [] => false
     | _ :: s' => occursIn v s'
     end.

(** Global, non-overlapping, left-to-right replacement of the literal [v] by
    [sub]: at an index where [v] starts, [sub] is written and the scan resumes
    after the occurrence ([skip] counts its code units still to pass, so what
    was written is not scanned again); elsewhere the code unit is copied.  The
    empty [v] occurs before every code unit and at the end. *)
Fixpoint literalReplaceAll (v sub : jsstring) (skip : nat) (s : jsstring)
  : jsstring :=
  match skip with
  | S n =>
      match s with
      | [] => []
      | _ :: s' => literalReplaceAll v sub n s'
      end
  | O =>
      match s with
      | [] => if isPrefix v [] then sub else []
      | c :: s' =>
          if isPrefix v s then
            sub ++ match v with
                   | [] => c :: literalReplaceAll v sub 0 s'
                   | _ :: v' => literalReplaceAll v sub (length v') s'
                   end
          else c :: literalReplaceAll v sub 0 s'
      end
  end.

(** One step of the fold: replace variant [v] in the text so far, and note
    whether it occurred there. *)
Definition substituteStep (replaceWith : jsstring) (acc : jsstring * bool)
  (v : jsstring) : jsstring * bool :=
  (literalReplaceAll v (preserveCase v replaceWith) 0 (fst acc),
   snd acc || occursIn v (fst acc)).

(** Content substitution as a left fold over the variant list. *)
Definition substituteFold (searchVariants : list jsstring)
  (replaceWith text : jsstring) : jsstring * bool :=
  fold_left (substituteStep replaceWith) searchVariants (text, false).

(** The console lines of one step, one per occurrence. *)
Fixpoint occurrences (v : jsstring) (skip : nat) (s : jsstring) : nat :=
  match skip with
  | S n =>
      match s with
      | [] => 0
      | _ :: s' => occurrences v n s'
      end
  | O =>
      match s with
      | [] => if isPrefix v [] then 1 else 0
      | _ :: s' =>
          if isPrefix v s then
            S (match v with
               | [] => occurrences v 0 s'
               | _ :: v' => occurrences v (length v') s'
               end)
          else occurrences v 0 s'
      end
  end.

Fixpoint substituteLog (say : jsstring -> jsstring -> line)
  (searchVariants : list jsstring) (replaceWith text : jsstring) : list event :=
  match searchVariants with
  | [] => []
  | v :: vs =>
      repeat (ConsoleLog (say v (preserveCase v replaceWith)))
             (occurrences v 0 text)
      ++ substituteLog say vs replaceWith
           (literalReplaceAll v (preserveCase v replaceWith) 0 text)
  end.

(** The code unit before the index that follows a match of [v]. *)
Definition prevAfter (v : jsstring) (prev : option codeunit) : option codeunit :=
  fold_left (fun _ c => Some c) v prev.

(** A path whose basename is in the ignore set. *)
Definition ignoredPath (p : path) : bool := shouldIgnoreFolder (path_basename p).

(** [readdirSync] lists file names: no entry is empty, is [.] or [..], or
    holds a separator. *)
Definition listsFileNames : Prop :=
  forall (p : path) (s : FS F) (items : list jsstring),
    readdirSync F p s = inr items -> forallb plainName items = true.

(** The event is the listing of a directory. *)
Definition isListing (e : event) : bool :=
  match e with
  | FsReaddir _ => true
  | _ => false
  end.

(** The events [pre] end with a rename to [p] that returned: the call, and
    the line that is printed after it (line 164). *)
Definition justRenamedTo (pre : list event) (p : path) : Prop :=
  exists t0 src old new,
    pre = t0 ++ [FsRename src p; ConsoleLog (MsgRenamed old new)].

(** In the events [pre], the directory listed last is the one that holds
    [p], and [stat] said after that listing that [p] is a regular file and
    not a directory. *)
Definition listedAsFile (pre : list event) (p : path) : Prop :=
  exists t0 tm stats,
    pre = t0 ++ FsReaddir (path_dirname p) :: tm
    /\ Forall (fun e => isListing e = false) tm
    /\ In (FsStat p (inr stats)) tm
    /\ isDirectory stats = false /\ isFile stats = true.

(** What the ignore set guarantees of the events [t] of a traversal started
    on [root]: a rename whose source has an ignored basename is the rename of
    a regular file of the directory listed last, and a directory that is
    listed under an ignored basename is [root], listed first, or the
    destination of the rename that has just returned. *)
Definition skipsIgnored (root : path) (t : list event) : Prop :=
  (forall t1 src dst t2,
      t = t1 ++ FsRename src dst :: t2 -> ignoredPath src = true ->
      listedAsFile t1 src)
  /\ (forall t1 p t2,
        t = t1 ++ FsReaddir p :: t2 -> ignoredPath p = true ->
        (t1 = [] /\ p = root) \/ justRenamedTo t1 p).

(** An event of the work on the item [p]: a console line, or a read, a write
    or a rename of [p] itself. *)
Definition itemEvent (p : path) (e : event) : Prop :=
  match e with
  | ConsoleLog _ | ConsoleError _ => True
  | FsRead q | FsWrite q _ | FsRename q _ => q = p
  | _ => False
  end.

(** Events that neither rename nor list a directory. *)
Definition isQuiet (e : event) : bool :=
  match e with
  | FsRename _ _ | FsReaddir _ => false
  | _ => true
  end.

(** The paths the events read the content of, in order. *)
Definition readsOf (t : list event) : list path :=
  flat_map (fun e => match e with FsRead p => [p] | _ => [] end) t.

(** The world after the events [t], the file system untouched. *)
Definition logged (w : world) (t : list event) : world :=
  {| fs := fs w; trace := trace w ++ t |}.

(* ================================================================== *)
(** * Further vocabulary for the properties of the code *)

(** No code unit of [s] is whitespace. *)
Definition noSpace (s : jsstring) : bool :=
  forallb (fun c => negb (isWhiteSpace c)) s.


(** An event of the content pass on [p], and of the rename pass on [p]. *)
Definition contentEvent (p : path) (e : event) : Prop :=
  match e with
  | ConsoleLog _ | ConsoleError _ => True
  | FsRead q | FsWrite q _ => q = p
  | _ => False
  end.

Definition renameEvent (p : path) (e : event) : Prop :=
  match e with
  | ConsoleLog _ | ConsoleError _ => True
  | FsRename q _ => q = p
  | _ => False
  end.

(** The [stat] events of the first loop of [processDirectory] over [items],
    on the file system [s]. *)
Definition statEvents (dirPath : path) (items : list jsstring) (s : FS F)
  : list event :=
  map (fun item => FsStat (path_join dirPath item)
                     (statSync F (path_join dirPath item) s)) items.

(** The entries that [stat] on [s] says are directories outside the ignore
    set, and those it says are regular files, as full paths in listing
    order. *)
Definition listedDirectories (dirPath : path) (items : list jsstring) (s : FS F)
  : list path :=
  flat_map (fun item =>
              match statSync F (path_join dirPath item) s with
              | inr stats =>
                  if isDirectory stats && negb (shouldIgnoreFolder item)
                  then [path_join dirPath item] else []
              | inl _ => []
              end) items.

Definition listedFiles (dirPath : path) (items : list jsstring) (s : FS F)
  : list path :=
  flat_map (fun item =>
              match statSync F (path_join dirPath item) s with
              | inr stats =>
                  if negb (isDirectory stats) && isFile stats
                  then [path_join dirPath item] else []
              | inl _ => []
              end) items.

(** The console lines [main] prints for the variants, numbered from
    [index + 1]. *)
Fixpoint variantLines (index : nat) (variants : list jsstring) : list event :=
  match variants with
  | [] => []
  | v :: vs => ConsoleLog (MsgVariant (index + 1) v) :: variantLines (S index) vs
  end.

(** The events of [main] between the validation and the traversal. *)
Definition mainPrelude (rootPath : path) (rootStats : Stats)
  (searchText replaceWith : jsstring) : list event :=
  [FsExists rootPath; FsStat rootPath (inr rootStats);
   ConsoleLog (MsgSearching searchText);
   ConsoleLog (MsgReplacing replaceWith);
   ConsoleLog (MsgRoot rootPath);
   ConsoleLog (MsgGenerated (length (generateVariants searchText)))]
  ++ variantLines 0 (generateVariants searchText)
  ++ [ConsoleLog MsgStarting].



(** The writes among the events: path and content, in order. *)
Definition writesOf (t : list event) : list (path * jsstring) :=
  flat_map (fun e => match e with FsWrite p c => [(p, c)] | _ => [] end) t.

(** The renames among the events: old and new path, in order. *)
Definition renamesOf (t : list event) : list (path * path) :=
  flat_map (fun e => match e with FsRename p q => [(p, q)] | _ => [] end) t.

(** The in-memory file system with a dangling link: an entry named
    [dangling] is listed by its directory, and [stat] on it throws. *)
Definition linkfs : FileSystem := {|
  FS := memstate;
  readFileSync := mem_read;
  writeFileSync := mem_write;
  renameSync := mem_rename;
  readdirSync := mem_readdir;
  statSync := fun p s =>
                if jsstring_eqb (path_basename p) (js "dangling")
                then inl (js "ENOENT") else mem_stat p s;
  existsSync := mem_exists;
  path_resolve := path_join []
|}.

Definition linkWorld : World linkfs :=
  {| fs := [([], DirNode);
            ([js "proj"], DirNode);
            ([js "proj"; js "a.txt"], FileNode (js "foo"));
            ([js "proj"; js "dangling"], FileNode []);
            ([js "proj"; js "b.txt"], FileNode (js "foo"))] : FS linkfs;
     trace := [] |}.

(* ================================================================== *)
(** * Strings, arrays and sets *)

Lemma jsstring_eqb_eq (a b : jsstring) : jsstring_eqb a b = true <-> a = b.
Proof.
  revert b; induction a as [|x a IH]; intros [|y b]; simpl; split;
    try congruence; try reflexivity.
  - intros H. apply andb_true_iff in H as [Hx Hab].
    apply N.eqb_eq in Hx. apply IH in Hab. congruence.
  - intros H. injection H as -> ->. apply andb_true_iff. split.
    + apply N.eqb_refl.
    + now apply IH.
Qed.

Lemma jsstring_eqb_refl (a : jsstring) : jsstring_eqb a a = true.
Proof. now apply jsstring_eqb_eq. Qed.

Lemma jsstring_eqb_neq (a b : jsstring) : jsstring_eqb a b = false <-> a <> b.
Proof.
  split.
  - intros H E. apply jsstring_eqb_eq in E. congruence.
  - intros H. destruct (jsstring_eqb a b) eqn:E; [|reflexivity].
    apply jsstring_eqb_eq in E. contradiction.
Qed.

Lemma includes_In (l : list jsstring) (x : jsstring) :
  includes l x = true <-> In x l.
Proof.
  unfold includes. rewrite existsb_exists. split.
  - intros (y & Hy & E). apply jsstring_eqb_eq in E. now subst.
  - intros H. exists x. split; [assumption | apply jsstring_eqb_refl].
Qed.

Lemma includes_app (l1 l2 : list jsstring) (x : jsstring) :
  includes (l1 ++ l2) x = includes l1 x || includes l2 x.
Proof. unfold includes. apply existsb_app. Qed.

Lemma filter_twice (A : Type) (f g : A -> bool) (l : list A) :
  filter f (filter g l) = filter (fun x => g x && f x) l.
Proof.
  induction l as [|x l IH]; simpl; [reflexivity|].
  destruct (g x); simpl; [destruct (f x)|]; simpl; congruence.
Qed.

(** A set built by [add] from [acc] is [acc] followed by the first
    occurrences of the strings not in [acc]. *)
Lemma Set_add_fold (l acc : list jsstring) :
  fold_left Set_add l acc
  = acc ++ filter (fun y => negb (includes acc y)) (keepFirst l).
Proof.
  revert acc; induction l as [|x l IH]; intros acc; simpl.
  - now rewrite app_nil_r.
  - rewrite IH. unfold Set_add. destruct (includes acc x) eqn:Hx; simpl.
    + f_equal. rewrite filter_twice. apply filter_ext. intros y.
      destruct (includes acc y) eqn:Hy; simpl; [now rewrite andb_false_r|].
      destruct (jsstring_eqb x y) eqn:E; [|reflexivity].
      apply jsstring_eqb_eq in E. congruence.
    + rewrite <- app_assoc. simpl. f_equal. f_equal.
      rewrite filter_twice. apply filter_ext. intros y.
      rewrite includes_app. unfold includes at 2. simpl.
      rewrite orb_false_r, negb_orb.
      rewrite andb_comm. f_equal. f_equal.
      destruct (jsstring_eqb y x) eqn:E1, (jsstring_eqb x y) eqn:E2; try reflexivity.
      * apply jsstring_eqb_eq in E1. subst. now rewrite jsstring_eqb_refl in E2.
      * apply jsstring_eqb_eq in E2. subst. now rewrite jsstring_eqb_refl in E1.
Qed.

Lemma Set_of_array_keepFirst (l : list jsstring) : Set_of_array l = keepFirst l.
Proof.
  unfold Set_of_array. rewrite Set_add_fold. simpl.
  apply filter_true.
Qed.

Lemma keepFirst_In (l : list jsstring) (x : jsstring) :
  In x (keepFirst l) <-> In x l.
Proof.
  induction l as [|y l IH]; simpl; [tauto|].
  rewrite filter_In, IH. split.
  - intros [H | [H _]]; auto.
  - intros [H | H]; auto.
    destruct (jsstring_eqb y x) eqn:E.
    + left. now apply jsstring_eqb_eq.
    + right. split; [assumption | reflexivity].
Qed.

Lemma keepFirst_NoDup (l : list jsstring) : NoDup (keepFirst l).
Proof.
  induction l as [|y l IH]; simpl; constructor.
  - rewrite filter_In. intros [_ H]. now rewrite jsstring_eqb_refl in H.
  - now apply NoDup_filter.
Qed.

(* ================================================================== *)
(** * The variant generator *)

Lemma variantForms_head (s : jsstring) :
  exists rest, variantForms s = s :: rest.
Proof. unfold variantForms, push. simpl. eexists. reflexivity. Qed.

(** C6: for every input phrase [s] (so for every non-empty one),
    [generateVariants s] has pairwise distinct elements, is the array of the
    eleven forms with only the first occurrence of each string kept, in
    insertion order, and its first element is [s] itself, unchanged. *)
Theorem generateVariants_distinct_first (s : jsstring) :
  NoDup (generateVariants s)
  /\ generateVariants s = keepFirst (variantForms s)
  /\ (forall x, In x (generateVariants s) <-> In x (variantForms s))
  /\ hd_error (generateVariants s) = Some s.
Proof.
  unfold generateVariants. rewrite Set_of_array_keepFirst.
  split; [|split; [|split]].
  - apply keepFirst_NoDup.
  - reflexivity.
  - intros x. apply keepFirst_In.
  - destruct (variantForms_head s) as [rest ->]. reflexivity.
Qed.

(* ================================================================== *)
(** * Case preservation *)

Lemma isUppercaseLetter_test (c : codeunit) :
  isUppercaseLetter c
  = truthy [c]
    && jsstring_eqb [c] (toUpperCase [c])
    && negb (jsstring_eqb [c] (toLowerCase [c])).
Proof.
  unfold isUppercaseLetter. cbn [truthy isEmptyString length Nat.eqb negb andb].
  destruct (jsstring_eqb [c] (toUpperCase [c])) eqn:Eu.
  - apply jsstring_eqb_eq in Eu. rewrite <- Eu. now rewrite andb_true_r.
  - now rewrite andb_false_r.
Qed.

(** C4: [preserveCase m r] is [r] when [m] or [r] is empty; otherwise, when
    the first character of [m] is an uppercase letter (distinct uppercase and
    lowercase forms, equal to its uppercase form), it is the uppercase of
    [r]'s first character followed by the rest of [r]; otherwise it is the
    lowercase of [r]'s first character followed by the rest of [r].  The rest
    of [r] is always kept as it is. *)
Theorem preserveCase_rule (m r : jsstring) :
  preserveCase m r = casePreservationRule m r
  /\ (m = [] \/ r = [] -> preserveCase m r = r)
  /\ (forall c m' d rest, m = c :: m' -> r = d :: rest ->
        (isUppercaseLetter c = true ->
           preserveCase m r = toUpperCase [d] ++ rest)
        /\ (isUppercaseLetter c = false ->
              preserveCase m r = toLowerCase [d] ++ rest))
  /\ (forall d rest, r = d :: rest ->
        exists first, preserveCase m r = first ++ rest
          /\ (first = [d] \/ first = toUpperCase [d] \/ first = toLowerCase [d])).
Proof.
  assert (E : preserveCase m r = casePreservationRule m r).
  { unfold preserveCase, casePreservationRule.
    destruct m as [|c m']; [reflexivity|].
    destruct r as [|d rest]; [reflexivity|].
    cbn [isEmptyString length Nat.eqb].
    change (charAt0 (c :: m')) with [c].
    change (charAt0 (d :: rest)) with [d].
    change (slice1 (d :: rest)) with rest.
    rewrite <- (isUppercaseLetter_test c). reflexivity. }
  split; [exact E|]. rewrite E. split; [|split].
  - intros [-> | ->]; [reflexivity | now destruct m].
  - intros c m' d rest -> ->. simpl. split; intros ->; reflexivity.
  - intros d rest ->. destruct m as [|c m']; simpl.
    + exists [d]. auto.
    + destruct (isUppercaseLetter c); eexists; split; eauto.
Qed.

(* ================================================================== *)
(** * Literal patterns *)

Lemma consumed_skipn (s : jsstring) (n : nat) :
  n <= length s -> consumed s (skipn n s) = firstn n s.
Proof.
  intros H. unfold consumed. rewrite length_skipn.
  replace (length s - (length s - n)) with n by lia. reflexivity.
Qed.

Lemma consumed_tail (c : codeunit) (s : jsstring) : consumed (c :: s) s = [c].
Proof. apply (@consumed_skipn (c :: s) 1). simpl. lia. Qed.

Lemma isPrefix_app (v s : jsstring) :
  isPrefix v s = true <-> s = v ++ skipn (length v) s.
Proof.
  revert s; induction v as [|x v IH]; intros s; simpl.
  - tauto.
  - destruct s as [|y s]; [split; discriminate|].
    rewrite andb_true_iff, N.eqb_eq, IH. split.
    + intros [-> H]. simpl. congruence.
    + simpl. intros H. injection H as -> H. auto.
Qed.

Lemma isPrefix_length (v s : jsstring) :
  isPrefix v s = true -> length v <= length s.
Proof.
  intros H. apply isPrefix_app in H.
  assert (L : length s = length (v ++ skipn (length v) s)) by congruence.
  rewrite length_app in L. lia.
Qed.

Lemma isPrefix_consumed (v s : jsstring) :
  isPrefix v s = true -> consumed s (skipn (length v) s) = v.
Proof.
  intros H. rewrite consumed_skipn by now apply isPrefix_length.
  apply isPrefix_app in H. rewrite H. rewrite firstn_app.
  rewrite Nat.sub_diag, firstn_all. simpl. apply app_nil_r.
Qed.

Lemma isPrefix_nil_r (v : jsstring) : isPrefix v [] = true -> v = [].
Proof. destruct v; [reflexivity | discriminate]. Qed.

Lemma isPrefix_self_app (v s : jsstring) : isPrefix v (v ++ s) = true.
Proof.
  induction v as [|x v IH]; simpl; [reflexivity|].
  now rewrite N.eqb_refl.
Qed.

Lemma matchRegex_literal (v : jsstring) (prev : option codeunit) (s : jsstring)
  (caps : list jsstring) (k : mcont) :
  matchRegex (literal v) prev s caps k
  = if isPrefix v s then k (prevAfter v prev) (skipn (length v) s) caps
    else None.
Proof.
  revert prev s; induction v as [|x v IH]; intros prev s; simpl.
  - reflexivity.
  - destruct s as [|y s]; [reflexivity|].
    destruct (N.eqb x y) eqn:E; simpl; [|reflexivity].
    apply N.eqb_eq in E. subst y. apply IH.
Qed.

Lemma matchAt_literal (v : jsstring) (prev : option codeunit) (s : jsstring) :
  matchAt (literal v) prev s
  = if isPrefix v s then Some (skipn (length v) s, []) else None.
Proof. unfold matchAt. apply matchRegex_literal. Qed.

(** A global scan for a literal, read through a replacement function, is the
    literal replacement of the specification. *)
Lemma scan_literal_replace (v : jsstring)
  (fn : jsstring -> list jsstring -> jsstring)
  (skip : nat) (prev : option codeunit) (s : jsstring) :
  flat_map (fun p => match p with Keep c => [c] | Hit m caps => fn m caps end)
           (scan (literal v) skip prev s)
  = literalReplaceAll v (fn v []) skip s.
Proof.
  revert skip prev; induction s as [|c s IH]; intros skip prev.
  - destruct skip as [|n]; [|reflexivity].
    cbn [scan literalReplaceAll]. rewrite matchAt_literal.
    destruct (isPrefix v []) eqn:E; [|reflexivity].
    apply isPrefix_nil_r in E. subst v. simpl. apply app_nil_r.
  - destruct skip as [|n]; [|apply IH].
    cbn [scan literalReplaceAll]. rewrite matchAt_literal.
    destruct (isPrefix v (c :: s)) eqn:E.
    + rewrite (isPrefix_consumed _ _ E). cbn [flat_map]. f_equal.
      destruct v as [|x v']; [cbn [flat_map app]; f_equal|]; apply IH.
    + cbn [flat_map app]. f_equal. apply IH.
Qed.

Lemma scan_literal_matches (v : jsstring) (skip : nat)
  (prev : option codeunit) (s : jsstring) :
  flat_map matchedOf (scan (literal v) skip prev s)
  = repeat v (occurrences v skip s).
Proof.
  revert skip prev; induction s as [|c s IH]; intros skip prev.
  - destruct skip as [|n]; [|reflexivity].
    cbn [scan occurrences]. rewrite matchAt_literal.
    destruct (isPrefix v []) eqn:E; [|reflexivity].
    apply isPrefix_nil_r in E. subst v. reflexivity.
  - destruct skip as [|n]; [|apply IH].
    cbn [scan occurrences]. rewrite matchAt_literal.
    destruct (isPrefix v (c :: s)) eqn:E.
    + rewrite (isPrefix_consumed _ _ E). cbn [flat_map matchedOf app repeat].
      f_equal. destruct v as [|x v']; [cbn [flat_map matchedOf app]|]; apply IH.
    + cbn [flat_map matchedOf app]. apply IH.
Qed.

Lemma occurrences_occursIn (v s : jsstring) :
  occursIn v s = negb (Nat.eqb (occurrences v 0 s) 0).
Proof.
  induction s as [|c s IH].
  - simpl. destruct (isPrefix v []); reflexivity.
  - cbn [occursIn occurrences]. destruct (isPrefix v (c :: s)); [reflexivity|].
    simpl. exact IH.
Qed.

Lemma literalReplaceAll_absent (v sub s : jsstring) :
  occursIn v s = false -> literalReplaceAll v sub 0 s = s.
Proof.
  induction s as [|c s IH]; cbn [occursIn literalReplaceAll]; intros H;
    apply orb_false_iff in H as [H1 H2]; rewrite H1; [reflexivity|].
  f_equal. now apply IH.
Qed.

Lemma literalReplaceAll_skip (v sub u s : jsstring) :
  literalReplaceAll v sub (length u) (u ++ s) = literalReplaceAll v sub 0 s.
Proof. induction u as [|x u IH]; [reflexivity | exact IH]. Qed.

(** The leftmost occurrence is replaced and the scan resumes after it: what
    was written is not scanned again. *)
Lemma literalReplaceAll_first (v sub pre post : jsstring) :
  v <> [] ->
  (forall i, i < length pre -> isPrefix v (skipn i (pre ++ v ++ post)) = false) ->
  literalReplaceAll v sub 0 (pre ++ v ++ post)
  = pre ++ sub ++ literalReplaceAll v sub 0 post.
Proof.
  intros Hv. induction pre as [|c pre IH]; intros H.
  - destruct v as [|x v']; [contradiction|].
    change ([] ++ (x :: v') ++ post) with (x :: (v' ++ post)).
    cbn [literalReplaceAll app].
    change (x :: v' ++ post) with ((x :: v') ++ post).
    rewrite isPrefix_self_app. f_equal. apply literalReplaceAll_skip.
  - change ((c :: pre) ++ v ++ post) with (c :: (pre ++ v ++ post)).
    cbn [literalReplaceAll].
    assert (H0 : isPrefix v (c :: (pre ++ v ++ post)) = false)
      by (apply (H 0); simpl; lia).
    rewrite H0. cbn [app]. f_equal. apply IH. intros i Hi.
    apply (H (S i)). simpl. lia.
Qed.

Lemma String_match_literal (v s : jsstring) :
  String_match (literal v) s
  = if occursIn v s then Some (repeat v (occurrences v 0 s)) else None.
Proof.
  unfold String_match. rewrite scan_literal_matches, occurrences_occursIn.
  destruct (occurrences v 0 s); reflexivity.
Qed.

Lemma String_replace_literal (v : jsstring)
  (fn : jsstring -> list jsstring -> jsstring) (s : jsstring) :
  String_replace (literal v) fn s = literalReplaceAll v (fn v []) 0 s.
Proof. apply scan_literal_replace. Qed.

(* ================================================================== *)
(** * Escaping *)

Lemma scan_class (P : codeunit -> bool) (prev : option codeunit) (s : jsstring) :
  scan (Class P) 0 prev s
  = map (fun c => if P c then Hit [c] [] else Keep c) s.
Proof.
  revert prev; induction s as [|c s IH]; intros prev; [reflexivity|].
  cbn [scan map]. unfold matchAt. cbn [matchRegex].
  destruct (P c); [|now rewrite IH].
  rewrite consumed_tail. cbn [length]. now rewrite IH.
Qed.

(** The class of [escapeRegExp] is the set of ECMAScript's syntax
    characters. *)
Lemma isSpecial_isSyntaxCharacter (c : codeunit) :
  isSpecial c = isSyntaxCharacter c.
Proof.
  apply eq_iff_eq_true. unfold isSpecial, isSyntaxCharacter.
  rewrite !existsb_exists.
  assert (H : forall x, In x (js ".*+?^${}" ++ js "()|[]" ++ [backslash])
                        <-> In x (js "^$.+?[]{}|" ++ js "*" ++ js "(" ++ js ")"
                                  ++ [backslash])).
  { intros x. vm_compute. tauto. }
  split; intros (x & Hx & E); exists x; split; try assumption; now apply H.
Qed.

Lemma escapeRegExp_units (s : jsstring) :
  escapeRegExp s
  = flat_map (fun c => if isSyntaxCharacter c then [backslash; c] else [c]) s.
Proof.
  unfold escapeRegExp, String_replace_str, String_replace, re_special.
  rewrite scan_class, flat_map_concat_map, map_map, <- flat_map_concat_map.
  apply flat_map_ext. intros c. rewrite <- isSpecial_isSyntaxCharacter.
  destruct (isSpecial c); reflexivity.
Qed.

(** Every escaped string is the source of the literal pattern of the string:
    the constructor does not throw, and the pattern is never a wildcard, a
    class or an anchor. *)
Lemma RegExp_escapeRegExp (s : jsstring) :
  RegExp (escapeRegExp s) = Some (literal s).
Proof.
  rewrite escapeRegExp_units. induction s as [|c s IH]; [reflexivity|].
  cbn [flat_map literal fold_right].
  destruct (isSyntaxCharacter c) eqn:E.
  - cbn [app RegExp]. rewrite N.eqb_refl, E.
    fold (literal s). now rewrite IH.
  - cbn [app RegExp]. rewrite E.
    destruct (N.eqb c backslash) eqn:Eb.
    + apply N.eqb_eq in Eb. subst c. discriminate E.
    + fold (literal s). now rewrite IH.
Qed.

(* ================================================================== *)
(** * The substitution loop *)

Lemma logged_nil (w : world) : logged w [] = w.
Proof. destruct w. unfold logged. simpl. now rewrite app_nil_r. Qed.

Lemma logged_logged (w : world) (t1 t2 : list event) :
  logged (logged w t1) t2 = logged w (t1 ++ t2).
Proof. unfold logged. simpl. now rewrite app_assoc. Qed.

Lemma console_log_run (l : line) (w : world) :
  console_log l w = (logged w [ConsoleLog l], Return tt).
Proof. reflexivity. Qed.

Lemma console_error_run (l : line) (w : world) :
  console_error l w = (logged w [ConsoleError l], Return tt).
Proof. reflexivity. Qed.

Lemma forOf_console_log (A : Type) (g : A -> line) (l : list A) (w : world) :
  forOf l (fun x => console_log (g x)) w
  = (logged w (map (fun x => ConsoleLog (g x)) l), Return tt).
Proof.
  revert w; induction l as [|x l IH]; intros w; simpl.
  - unfold ret. now rewrite logged_nil.
  - unfold bind. rewrite console_log_run, IH, logged_logged. reflexivity.
Qed.

Lemma occursIn_false_occurrences (v s : jsstring) :
  occursIn v s = false -> occurrences v 0 s = 0.
Proof.
  rewrite occurrences_occursIn. destruct (occurrences v 0 s); simpl;
    [reflexivity | discriminate].
Qed.

(** One turn of the loop is one step of the fold; its console lines are one
    per occurrence. *)
Lemma replaceVariant_step (say : jsstring -> jsstring -> line)
  (replaceWith content : jsstring) (hasChanges : bool) (v : jsstring) (w : world) :
  replaceVariant say replaceWith (content, hasChanges) v w
  = (logged w (repeat (ConsoleLog (say v (preserveCase v replaceWith)))
                      (occurrences v 0 content)),
     Return (substituteStep replaceWith (content, hasChanges) v)).
Proof.
  unfold replaceVariant, new_RegExp. rewrite RegExp_escapeRegExp.
  unfold bind at 1. unfold ret at 1.
  rewrite String_match_literal. unfold substituteStep. cbn [fst snd].
  destruct (occursIn v content) eqn:E.
  - unfold bind. rewrite forOf_console_log, map_repeat. unfold ret.
    rewrite String_replace_literal, orb_true_r. reflexivity.
  - unfold ret. rewrite (occursIn_false_occurrences _ _ E).
    rewrite (literalReplaceAll_absent _ _ _ E), orb_false_r.
    cbn [repeat]. now rewrite logged_nil.
Qed.

Lemma forOfVars_replaceVariant (say : jsstring -> jsstring -> line)
  (vs : list jsstring) (replaceWith content : jsstring) (hasChanges : bool)
  (w : world) :
  forOfVars vs (replaceVariant say replaceWith) (content, hasChanges) w
  = (logged w (substituteLog say vs replaceWith content),
     Return (fold_left (substituteStep replaceWith) vs (content, hasChanges))).
Proof.
  revert content hasChanges w; induction vs as [|v vs IH];
    intros content hasChanges w.
  - simpl. unfold ret. now rewrite logged_nil.
  - cbn [forOfVars fold_left substituteLog]. unfold bind.
    rewrite replaceVariant_step. unfold substituteStep at 1. cbn [fst snd].
    rewrite IH, logged_logged. reflexivity.
Qed.

(** The fold, one variant later. *)
Lemma substituteFold_snoc (vs : list jsstring) (v replaceWith text : jsstring) :
  substituteFold (vs ++ [v]) replaceWith text
  = substituteStep replaceWith (substituteFold vs replaceWith text) v.
Proof. unfold substituteFold. now rewrite fold_left_app. Qed.

(** C5: content substitution is the left fold over the variant list whose
    step replaces variant k, literally, globally, left to right and without
    overlap, in the output of step k-1 (so variant k+1 scans what variant k
    wrote); within one step the leftmost occurrence is replaced and the scan
    resumes after it, so what the step wrote is not scanned again by it.  The
    loop changes nothing but the console. *)
Theorem substituteAll_is_fold (say : jsstring -> jsstring -> line)
  (searchVariants : list jsstring) (replaceWith text : jsstring) (w : world) :
  substituteAll say searchVariants replaceWith text w
  = (logged w (substituteLog say searchVariants replaceWith text),
     Return (substituteFold searchVariants replaceWith text))
  /\ (forall v, substituteFold (searchVariants ++ [v]) replaceWith text
        = substituteStep replaceWith
            (substituteFold searchVariants replaceWith text) v)
  /\ (forall v sub pre post, v <> [] ->
        (forall i, i < length pre ->
           isPrefix v (skipn i (pre ++ v ++ post)) = false) ->
        literalReplaceAll v sub 0 (pre ++ v ++ post)
        = pre ++ sub ++ literalReplaceAll v sub 0 post)
  /\ (forall v sub s, occursIn v s = false -> literalReplaceAll v sub 0 s = s).
Proof.
  split; [apply forOfVars_replaceVariant|].
  split; [intros v; apply substituteFold_snoc|].
  split; [intros; now apply literalReplaceAll_first|].
  intros; now apply literalReplaceAll_absent.
Qed.

(* ================================================================== *)
(** * The flag of the substitution loop *)

Lemma substituteFold_flag (vs : list jsstring) (replaceWith text : jsstring) :
  snd (substituteFold vs replaceWith text) = true
  <-> exists vs1 v vs2,
        vs = vs1 ++ v :: vs2
        /\ occursIn v (fst (substituteFold vs1 replaceWith text)) = true.
Proof.
  induction vs as [|v vs IH] using rev_ind.
  - split; [discriminate|]. intros (vs1 & v & vs2 & E & _).
    destruct vs1; discriminate.
  - rewrite substituteFold_snoc. unfold substituteStep at 1. cbn [snd].
    rewrite orb_true_iff, IH. split.
    + intros [(vs1 & u & vs2 & -> & H) | H].
      * exists vs1, u, (vs2 ++ [v]). split; [|assumption].
        now rewrite <- app_assoc.
      * exists vs, v, []. auto.
    + intros (vs1 & u & vs2 & E & H).
      destruct vs2 as [|x vs2 _] using rev_ind.
      * apply app_inj_tail in E as [-> ->]. now right.
      * left. rewrite app_comm_cons, app_assoc in E.
        apply app_inj_tail in E as [-> _]. now exists vs1, u, vs2.
Qed.

Lemma substituteFold_unflagged (vs : list jsstring) (replaceWith text : jsstring)
  (b : bool) :
  snd (fold_left (substituteStep replaceWith) vs (text, b)) = false ->
  b = false /\ fst (fold_left (substituteStep replaceWith) vs (text, b)) = text.
Proof.
  revert text b; induction vs as [|v vs IH]; intros text b; cbn [fold_left].
  - auto.
  - change (substituteStep replaceWith (text, b) v)
      with (literalReplaceAll v (preserveCase v replaceWith) 0 text,
            b || occursIn v text).
    intros H. apply IH in H as [Hb Ht].
    apply orb_false_iff in Hb as [-> Ho].
    split; [reflexivity|]. rewrite Ht. now apply literalReplaceAll_absent.
Qed.

(** C3 (amended): the flag of content substitution is true exactly when
    some variant has an occurrence in the text as its step finds it, that is
    when at least one replacement was made; a transformed text that differs
    from the input always comes with the flag true. *)
Theorem hasChanges_iff_replaced (say : jsstring -> jsstring -> line)
  (searchVariants : list jsstring) (replaceWith text : jsstring) (w : world) :
  exists out flag,
    snd (substituteAll say searchVariants replaceWith text w) = Return (out, flag)
    /\ (flag = true <->
        exists vs1 v vs2,
          searchVariants = vs1 ++ v :: vs2
          /\ occursIn v (fst (substituteFold vs1 replaceWith text)) = true)
    /\ (out <> text -> flag = true).
Proof.
  unfold substituteAll. rewrite forOfVars_replaceVariant. cbn [snd].
  fold (substituteFold searchVariants replaceWith text).
  destruct (substituteFold searchVariants replaceWith text) as [out flag] eqn:Ef.
  exists out, flag. split; [reflexivity|]. split.
  - rewrite <- substituteFold_flag, Ef. reflexivity.
  - intros Hne. destruct flag; [reflexivity|]. exfalso. apply Hne.
    unfold substituteFold in Ef.
    destruct (@substituteFold_unflagged searchVariants replaceWith text false) as [_ Ht].
    + now rewrite Ef.
    + now rewrite Ef in Ht.
Qed.

(* ================================================================== *)
(** * Validation of the command line *)

Lemma trimStart_blank (s : jsstring) :
  forallb isWhiteSpace s = true -> trimStart s = [].
Proof.
  induction s as [|c s IH]; simpl; [reflexivity|].
  intros H. apply andb_true_iff in H as [Hc Hs]. rewrite Hc. auto.
Qed.

Lemma trim_blank (s : jsstring) :
  forallb isWhiteSpace s = true -> trim s = [].
Proof. intros H. unfold trim. now rewrite (trimStart_blank _ H). Qed.

(** C8: when the replacement text (the third argument) is empty or only
    whitespace, [main] prints the error and the process exits with status 1;
    the file system is as it was and the only event is the console line: no
    file or directory was tested, listed, read, written or renamed. *)
Theorem main_rejects_blank_replacement (fuel : nat) (args : list jsstring)
  (replaceWith : jsstring) (w : world) :
  nth_error args 2 = Some replaceWith ->
  forallb isWhiteSpace replaceWith = true ->
  exists w',
    main fuel args w = (w', Exit 1)
    /\ 1 <> 0
    /\ fs w' = fs w
    /\ trace w' = trace w ++ [ConsoleError MsgEmptyReplacement]
    /\ forallb isFsEvent [ConsoleError MsgEmptyReplacement] = false.
Proof.
  intros Hr Hb.
  exists (logged w [ConsoleError MsgEmptyReplacement]).
  split; [|repeat split; discriminate].
  assert (Hlen : (length args <? 3) = false).
  { apply Nat.ltb_ge. assert (2 < length args); [|lia].
    apply nth_error_Some. congruence. }
  assert (Hn : nth 2 args ([] : jsstring) = replaceWith)
    by (now apply nth_error_nth).
  unfold main. rewrite Hlen. cbv zeta. rewrite Hn, (trim_blank _ Hb).
  reflexivity.
Qed.

(* ================================================================== *)
(** * What the two operations on one item do, case by case *)

Lemma console_error_run_bind (A : Type) (l : line) (a : A) (w : world) :
  (console_error l ;; ret a) w = (logged w [ConsoleError l], Return a).
Proof. reflexivity. Qed.

Lemma replaceInFileContent_run (p : path) (vs : list jsstring) (r : jsstring)
  (w : world) :
  replaceInFileContent p vs r w
  = match readFileSync F p (fs w) with
    | inl e =>
        (logged w [FsRead p; ConsoleError (MsgContentError p e)], Return false)
    | inr text =>
        let res := substituteFold vs r text in
        let w1 := logged w (FsRead p :: substituteLog MsgContentReplaced vs r text) in
        if snd res then
          match writeFileSync F p (fst res) (fs w) with
          | inl e =>
              (logged w1 [FsWrite p (fst res);
                          ConsoleError (MsgContentError p e)],
               Return false)
          | inr s =>
              ({| fs := s;
                  trace := trace w1 ++ [FsWrite p (fst res);
                                        ConsoleLog (MsgUpdated p)] |},
               Return true)
          end
        else (w1, Return false)
    end.
Proof.
  unfold replaceInFileContent, tryCatch.
  unfold bind at 1. unfold fs_readFileSync, fsQuery.
  fold (logged w [FsRead p]).
  destruct (readFileSync F p (fs w)) as [e | text].
  - rewrite console_error_run_bind. rewrite logged_logged. reflexivity.
  - unfold bind at 1. unfold substituteAll.
    rewrite forOfVars_replaceVariant.
    fold (substituteFold vs r text).
    rewrite logged_logged. cbn [app].
    destruct (snd (substituteFold vs r text)); cbv zeta.
    + unfold bind, fs_writeFileSync, fsUpdate. cbn [fs logged].
      destruct (writeFileSync F p (fst (substituteFold vs r text)) (fs w)) as [e | s].
      * unfold console_error, emit, ret, logged. cbn [fs trace].
        now rewrite <- app_assoc.
      * unfold console_log, emit, ret, logged. cbn [fs trace].
        now rewrite <- app_assoc.
    + reflexivity.
Qed.

Lemma renameIfMatches_run (p : path) (vs : list jsstring) (r : jsstring)
  (w : world) :
  renameIfMatches p vs r w
  = let itemName := path_basename p in
    let res := substituteFold vs r itemName in
    let w1 := logged w (substituteLog MsgNameReplaced vs r itemName) in
    if snd res then
      let newPath := path_join (path_dirname p) (fst res) in
      match renameSync F p newPath (fs w) with
      | inl e =>
          (logged w1 [FsRename p newPath; ConsoleError (MsgRenameError p e)],
           Return None)
      | inr s =>
          ({| fs := s;
              trace := trace w1 ++ [FsRename p newPath;
                                    ConsoleLog (MsgRenamed itemName (fst res))] |},
           Return (Some newPath))
      end
    else (w1, Return None).
Proof.
  unfold renameIfMatches. cbv zeta. unfold bind at 1. unfold substituteAll.
  rewrite forOfVars_replaceVariant.
  fold (substituteFold vs r (path_basename p)).
  destruct (snd (substituteFold vs r (path_basename p))); [|reflexivity].
  unfold tryCatch, bind, fs_renameSync, fsUpdate. cbn [fs logged].
  destruct (renameSync F p _ (fs w)) as [e | s].
  - unfold console_error, emit, ret, logged. cbn [fs trace].
    now rewrite <- app_assoc.
  - unfold console_log, emit, ret, logged. cbn [fs trace].
    now rewrite <- app_assoc.
Qed.

(* ================================================================== *)
(** * The events of the work on one item, and of the loop over files *)

Lemma substituteLog_console (say : jsstring -> jsstring -> line)
  (vs : list jsstring) (r text : jsstring) :
  Forall (fun e => isFsEvent e = false) (substituteLog say vs r text).
Proof.
  revert text; induction vs as [|v vs IH]; intros text; simpl.
  - constructor.
  - apply Forall_app. split; [|apply IH].
    apply Forall_forall. intros e He. apply repeat_spec in He. now subst.
Qed.

Lemma console_itemEvent (p : path) (t : list event) :
  Forall (fun e => isFsEvent e = false) t -> Forall (itemEvent p) t.
Proof.
  apply Forall_impl. intros [] H; simpl in *; try discriminate; exact I.
Qed.

Lemma console_readsOf (t : list event) :
  Forall (fun e => isFsEvent e = false) t -> readsOf t = [].
Proof.
  induction 1 as [|e t He _ IH]; [reflexivity|].
  unfold readsOf in *. simpl. rewrite IH.
  destruct e; simpl in *; try discriminate; reflexivity.
Qed.

Lemma readsOf_app (t1 t2 : list event) :
  readsOf (t1 ++ t2) = readsOf t1 ++ readsOf t2.
Proof. unfold readsOf. apply flat_map_app. Qed.

Lemma replaceInFileContent_events (p : path) (vs : list jsstring) (r : jsstring)
  (w : world) :
  exists w' b t,
    replaceInFileContent p vs r w = (w', Return b)
    /\ trace w' = trace w ++ t
    /\ Forall (itemEvent p) t
    /\ readsOf t = [p].
Proof.
  rewrite replaceInFileContent_run.
  pose proof (substituteLog_console MsgContentReplaced vs r) as Hc.
  destruct (readFileSync F p (fs w)) as [e | text].
  - do 3 eexists. split; [reflexivity|]. split; [reflexivity|].
    split; [|reflexivity]. repeat constructor.
  - cbv zeta. specialize (Hc text).
    destruct (snd (substituteFold vs r text)).
    + destruct (writeFileSync F p _ (fs w)) as [e | s];
        (do 3 eexists; split; [reflexivity|]; cbn [trace logged];
         rewrite <- app_assoc; split; [reflexivity|]; split;
         [ cbn [app]; constructor; [reflexivity|];
           apply Forall_app; split;
           [now apply console_itemEvent | repeat constructor]
         | cbn [app]; change (FsRead p :: ?l) with ([FsRead p] ++ l);
           rewrite !readsOf_app, (console_readsOf Hc); reflexivity ]).
    + do 3 eexists. split; [reflexivity|]. split; [reflexivity|]. split.
      * constructor; [reflexivity | now apply console_itemEvent].
      * change (FsRead p :: ?l) with ([FsRead p] ++ l).
        rewrite readsOf_app, (console_readsOf Hc). reflexivity.
Qed.

Lemma renameIfMatches_events (p : path) (vs : list jsstring) (r : jsstring)
  (w : world) :
  exists w' res t,
    renameIfMatches p vs r w = (w', Return res)
    /\ trace w' = trace w ++ t
    /\ Forall (itemEvent p) t
    /\ readsOf t = []
    /\ (forall q, res = Some q -> In (FsRename p q) t).
Proof.
  rewrite renameIfMatches_run. cbv zeta.
  pose proof (substituteLog_console MsgNameReplaced vs r (path_basename p)) as Hc.
  destruct (snd (substituteFold vs r (path_basename p))).
  - destruct (renameSync F p _ (fs w)) as [e | s];
      (do 3 eexists; split; [reflexivity|]; cbn [trace logged];
       rewrite <- app_assoc; split; [reflexivity|]; split;
       [ apply Forall_app; split;
         [now apply console_itemEvent | repeat constructor]
       | split;
         [ rewrite readsOf_app, (console_readsOf Hc); reflexivity
         | intros q Hq; try discriminate; injection Hq as <-;
           apply in_or_app; right; now left ] ]).
  - do 3 eexists. split; [reflexivity|]. split; [reflexivity|].
    split; [now apply console_itemEvent|].
    split; [now apply console_readsOf | discriminate].
Qed.

Lemma processFile_events (p : path) (vs : list jsstring) (r : jsstring)
  (w : world) :
  exists w' t,
    processFile p vs r w = (w', Return tt)
    /\ trace w' = trace w ++ t
    /\ Forall (itemEvent p) t
    /\ readsOf t = [p].
Proof.
  unfold processFile, bind.
  destruct (replaceInFileContent_events p vs r w)
    as (w1 & b & t1 & -> & Ht1 & Hf1 & Hr1).
  destruct (renameIfMatches_events p vs r w1)
    as (w2 & res & t2 & -> & Ht2 & Hf2 & Hr2 & _).
  exists w2, (t1 ++ t2). split; [reflexivity|].
  split; [now rewrite Ht2, Ht1, app_assoc|].
  split; [apply Forall_app; now split|].
  now rewrite readsOf_app, Hr1, Hr2.
Qed.

(** The loop over [files] runs to its end whatever happens to an item, and
    reads every file once, in order. *)
Lemma forOf_processFile_events (files : list path) (vs : list jsstring)
  (r : jsstring) (w : world) :
  exists w' t,
    forOf files (fun filePath => processFile filePath vs r) w = (w', Return tt)
    /\ trace w' = trace w ++ t
    /\ Forall (fun e => exists p, In p files /\ itemEvent p e) t
    /\ readsOf t = files.
Proof.
  revert w; induction files as [|p files IH]; intros w.
  - exists w, []. simpl. rewrite app_nil_r. repeat split. constructor.
  - cbn [forOf]. unfold bind.
    destruct (processFile_events p vs r w) as (w1 & t1 & -> & Ht1 & Hf1 & Hr1).
    destruct (IH w1) as (w2 & t2 & -> & Ht2 & Hf2 & Hr2).
    exists w2, (t1 ++ t2). split; [reflexivity|].
    split; [now rewrite Ht2, Ht1, app_assoc|]. split.
    + apply Forall_app. split.
      * revert Hf1. apply Forall_impl. intros e He. exists p. simpl. auto.
      * revert Hf2. apply Forall_impl. intros e (q & Hq & He).
        exists q. simpl. auto.
    + now rewrite readsOf_app, Hr1, Hr2.
Qed.

(* ================================================================== *)
(** * Paths *)

Lemma segments_plain (name : jsstring) :
  forallb (fun c => negb (N.eqb c slash)) name = true -> segments name = [name].
Proof.
  induction name as [|c name IH]; [reflexivity|].
  cbn [forallb segments]. intros H. apply andb_true_iff in H as [Hc Hn].
  destruct (N.eqb c slash); [discriminate|]. now rewrite (IH Hn).
Qed.

(** Joining a file name appends one component. *)
Lemma path_join_plain (d : path) (n : jsstring) :
  plainName n = true -> path_join d n = d ++ [n].
Proof.
  unfold plainName, path_join. intros H.
  apply andb_true_iff in H as [H H2]. apply andb_true_iff in H as [H H1].
  apply andb_true_iff in H as [He Hs].
  rewrite (@segments_plain _ Hs). cbn [fold_left]. unfold normalizeSegment.
  apply negb_true_iff in He, H1, H2. now rewrite He, H1, H2.
Qed.

Lemma path_dirname_join (d : path) (n : jsstring) :
  plainName n = true -> path_dirname (path_join d n) = d.
Proof.
  intros H. rewrite (@path_join_plain _ _ H). unfold path_dirname.
  apply removelast_last.
Qed.

Lemma path_basename_join (d : path) (n : jsstring) :
  plainName n = true -> path_basename (path_join d n) = n.
Proof.
  intros H. rewrite (@path_join_plain _ _ H). unfold path_basename.
  apply last_last.
Qed.

Lemma ignoredPath_join (dirPath : path) (item : jsstring) :
  plainName item = true ->
  ignoredPath (path_join dirPath item) = shouldIgnoreFolder item.
Proof. intros H. unfold ignoredPath. now rewrite (@path_basename_join _ _ H). Qed.

Lemma path_join_injective (d : path) (n m : jsstring) :
  plainName n = true -> plainName m = true ->
  path_join d n = path_join d m -> n = m.
Proof.
  intros Hn Hm. rewrite (@path_join_plain _ _ Hn), (@path_join_plain _ _ Hm).
  intros H. now apply app_inj_tail in H as [_ H].
Qed.

(* ================================================================== *)
(** * The loops of a traversal *)

(** The guard of the first loop: one turn stats the item and adds it to
    [directories] only when it is a directory whose name is not ignored. *)
Lemma classifyItem_run (dirPath : path) (dirs files : list path)
  (item : jsstring) (w : world) :
  classifyItem dirPath (dirs, files) item w
  = let fullPath := path_join dirPath item in
    let result := statSync F fullPath (fs w) in
    (logged w [FsStat fullPath result],
     match result with
     | inl e => Throw e
     | inr stats =>
         Return
           (if isDirectory stats then
              if shouldIgnoreFolder item then (dirs, files)
              else (dirs ++ [fullPath], files)
            else if isFile stats then (dirs, files ++ [fullPath])
            else (dirs, files))
     end).
Proof.
  unfold classifyItem, bind, fs_statSync, fsQuery. cbv zeta.
  fold (logged w [FsStat (path_join dirPath item)
                    (statSync F (path_join dirPath item) (fs w))]).
  destruct (statSync F (path_join dirPath item) (fs w)) as [e | stats];
    [reflexivity|].
  destruct (isDirectory stats); [destruct (shouldIgnoreFolder item)|
    destruct (isFile stats)]; reflexivity.
Qed.

(** The first loop only stats.  What it adds to [directories] is a listed
    item outside the ignore set; what it adds to [files] is a listed item
    that [stat] has just said is a regular file and not a directory. *)
Lemma classify_events (dirPath : path) (items : list jsstring)
  (dirs0 files0 : list path) (w : world) :
  exists w' o t,
    forOfVars items (classifyItem dirPath) (dirs0, files0) w = (w', o)
    /\ trace w' = trace w ++ t
    /\ Forall (fun e => isQuiet e = true) t
    /\ match o with
       | Return (dirs, files) =>
           (forall d, In d dirs ->
              In d dirs0
              \/ exists item,
                   In item items /\ d = path_join dirPath item
                   /\ shouldIgnoreFolder item = false)
           /\ (forall f, In f files ->
                 In f files0
                 \/ exists item stats,
                      In item items /\ f = path_join dirPath item
                      /\ In (FsStat f (inr stats)) t
                      /\ statSync F f (fs w) = inr stats
                      /\ isDirectory stats = false /\ isFile stats = true)
       | Throw _ => True
       | _ => False
       end.
Proof.
  revert dirs0 files0 w; induction items as [|item items IH];
    intros dirs0 files0 w.
  - exists w, (Return (dirs0, files0)), []. simpl. rewrite app_nil_r.
    repeat split; auto.
  - cbn [forOfVars]. unfold bind. rewrite classifyItem_run. cbv zeta.
    set (fullPath := path_join dirPath item).
    set (ev := FsStat fullPath (statSync F fullPath (fs w))).
    destruct (statSync F fullPath (fs w)) as [e | stats] eqn:Es.
    + exists (logged w [ev]), (Throw e), [ev].
      repeat split; auto; repeat constructor.
    + match goal with
      | |- context [forOfVars items _ ?acc _] =>
          destruct acc as [dirs1 files1] eqn:Eacc
      end.
      destruct (IH dirs1 files1 (logged w [ev]))
        as (w' & o & t & -> & Ht & Hq & Ho).
      exists w', o, (ev :: t). split; [reflexivity|].
      split; [rewrite Ht; cbn [trace logged]; now rewrite <- app_assoc|].
      split; [constructor; [reflexivity | assumption]|].
      destruct o as [[dirs files] | | |]; auto.
      destruct Ho as [Hd Hf]. cbn [fs logged] in Hf. split.
      * intros d Hin. destruct (Hd d Hin) as [H1 | (i & Hi & E & Hg)];
          [|right; exists i; simpl; auto].
        destruct (isDirectory stats);
          [destruct (shouldIgnoreFolder item) eqn:Ei|destruct (isFile stats)];
          injection Eacc as <- <-; auto.
        apply in_app_or in H1 as [H1 | [<- | []]]; auto.
        right. exists item. simpl. auto.
      * intros f Hin.
        destruct (Hf f Hin) as [H1 | (i & st & Hi & E & Hin' & Hs & Hflags)].
        -- destruct (isDirectory stats) eqn:Ed;
             [destruct (shouldIgnoreFolder item)|destruct (isFile stats) eqn:Ef];
             injection Eacc as <- <-; auto.
           apply in_app_or in H1 as [H1 | [<- | []]]; auto.
           right. exists item, stats. simpl. auto 10.
        -- right. exists i, st. simpl. auto 10.
Qed.

Lemma bind_Return {A B : Type} {m : M A} (f : A -> M B) {w w1 : world} {a : A} :
  m w = (w1, Return a) -> bind m f w = f a w1.
Proof. unfold bind. now intros ->. Qed.

Lemma bind_Throw {A B : Type} {m : M A} (f : A -> M B) {w w1 : world} {e : error} :
  m w = (w1, Throw e) -> bind m f w = (w1, Throw e).
Proof. unfold bind. now intros ->. Qed.

Lemma bind_OutOfFuel {A B : Type} {m : M A} (f : A -> M B) {w w1 : world} :
  m w = (w1, OutOfFuel) -> bind m f w = (w1, OutOfFuel).
Proof. unfold bind. now intros ->. Qed.

Lemma tryCatch_Return {A : Type} {m : M A} (h : error -> M A) {w w1 : world} {a : A} :
  m w = (w1, Return a) -> tryCatch m h w = (w1, Return a).
Proof. unfold tryCatch. now intros ->. Qed.

Lemma tryCatch_Throw {A : Type} {m : M A} (h : error -> M A) {w w1 : world} {e : error} :
  m w = (w1, Throw e) -> tryCatch m h w = h e w1.
Proof. unfold tryCatch. now intros ->. Qed.

Lemma tryCatch_OutOfFuel {A : Type} {m : M A} (h : error -> M A) {w w1 : world} :
  m w = (w1, OutOfFuel) -> tryCatch m h w = (w1, OutOfFuel).
Proof. unfold tryCatch. now intros ->. Qed.

Lemma fs_readdirSync_run (p : path) (w : world) :
  fs_readdirSync p w
  = (logged w [FsReaddir p],
     match readdirSync F p (fs w) with
     | inl e => Throw e
     | inr items => Return items
     end).
Proof.
  unfold fs_readdirSync, fsQuery. fold (logged w [FsReaddir p]).
  now destruct (readdirSync F p (fs w)).
Qed.

(** The loop over [directories] never throws, given that a recursive call
    does not. *)
Lemma forOf_directories_events (vs : list jsstring) (r : jsstring)
  (recurse : path -> M unit) :
  (forall root w, exists w' o t,
      recurse root w = (w', o)
      /\ (o = Return tt \/ o = OutOfFuel)
      /\ trace w' = trace w ++ t) ->
  forall (dirs : list path) (w : world),
    exists w' o t,
      forOf dirs
        (fun dirPath' =>
           newDirPath <- renameIfMatches dirPath' vs r ;;
           recurse match newDirPath with Some p => p | None => dirPath' end) w
      = (w', o)
      /\ (o = Return tt \/ o = OutOfFuel)
      /\ trace w' = trace w ++ t.
Proof.
  intros Hrec. induction dirs as [|d dirs IH]; intros w.
  - exists w, (Return tt), []. rewrite app_nil_r.
    split; [reflexivity|]. split; [now left | reflexivity].
  - cbn [forOf].
    destruct (renameIfMatches_events d vs r w)
      as (w1 & res & t1 & E1 & Ht1 & _).
    set (root' := match res with Some p => p | None => d end).
    destruct (Hrec root' w1) as (w2 & o2 & t2 & E2 & Ho2 & Ht2).
    assert (Ebody : (newDirPath <- renameIfMatches d vs r ;;
                     recurse match newDirPath with Some p => p | None => d end) w
                    = (w2, o2)).
    { rewrite (bind_Return _ E1). exact E2. }
    destruct Ho2 as [-> | ->].
    + rewrite (bind_Return _ Ebody).
      destruct (IH w2) as (w3 & o3 & t3 & E3 & Ho3 & Ht3).
      exists w3, o3, ((t1 ++ t2) ++ t3). split; [exact E3|].
      split; [assumption|]. now rewrite Ht3, Ht2, Ht1, !app_assoc.
    + rewrite (bind_OutOfFuel _ Ebody).
      exists w2, OutOfFuel, (t1 ++ t2). split; [reflexivity|].
      split; [now right|]. now rewrite Ht2, Ht1, app_assoc.
Qed.

(** A traversal never throws and never exits. *)
Lemma processDirectory_events (vs : list jsstring) (r : jsstring) (fuel : nat) :
  forall (root : path) (w : world),
  exists w' o t,
    processDirectory fuel root vs r w = (w', o)
    /\ (o = Return tt \/ o = OutOfFuel)
    /\ trace w' = trace w ++ t.
Proof.
  induction fuel as [|fuel IH]; intros root w.
  - exists w, OutOfFuel, []. rewrite app_nil_r.
    split; [reflexivity|]. split; [now right | reflexivity].
  - cbn [processDirectory].
    pose proof (fs_readdirSync_run root w) as Erd.
    destruct (readdirSync F root (fs w)) as [e | items].
    + rewrite (tryCatch_Throw _ (bind_Throw _ Erd)), console_error_run_bind,
        logged_logged.
      do 3 eexists. split; [reflexivity|]. split; [now left | reflexivity].
    + destruct (classify_events root items [] [] (logged w [FsReaddir root]))
        as (w1 & o1 & t1 & E1 & Ht1 & _ & Ho1).
      cbn [trace logged] in Ht1. rewrite <- app_assoc in Ht1.
      destruct o1 as [[dirs files] | e | c |]; try contradiction.
      * destruct (forOf_processFile_events files vs r w1)
          as (w2 & t2 & E2 & Ht2 & _).
        destruct (@forOf_directories_events vs r
                    (fun p => processDirectory fuel p vs r) IH dirs w2)
          as (w3 & o3 & t3 & E3 & Ho3 & Ht3).
        exists w3, o3, (FsReaddir root :: t1 ++ t2 ++ t3).
        split.
        { destruct Ho3 as [-> | ->];
            [apply tryCatch_Return | apply tryCatch_OutOfFuel];
            rewrite (bind_Return _ Erd), (bind_Return _ E1); cbn [fst snd];
            rewrite (bind_Return _ E2); exact E3. }
        split; [assumption|].
        rewrite Ht3, Ht2, Ht1. cbn [app]. now rewrite <- !app_assoc.
      * erewrite tryCatch_Throw
          by (rewrite (bind_Return _ Erd); apply (bind_Throw _ E1)).
        rewrite console_error_run_bind.
        do 3 eexists. split; [reflexivity|]. split; [now left|].
        cbn [trace logged]. rewrite Ht1. cbn [app].
        rewrite <- !app_assoc. reflexivity.
Qed.

(* ================================================================== *)
(** * The ignore set along a traversal *)

(** An event of a sequence made of two parts is in one of them. *)
Lemma app_split (A : Type) (ta tb t1 t2 : list A) (e : A) :
  ta ++ tb = t1 ++ e :: t2 ->
  (exists t2', ta = t1 ++ e :: t2' /\ t2 = t2' ++ tb)
  \/ (exists t1', t1 = ta ++ t1' /\ tb = t1' ++ e :: t2).
Proof.
  revert t1; induction ta as [|x ta IH]; intros t1 H.
  - right. exists t1. auto.
  - destruct t1 as [|y t1]; simpl in H; injection H as Hx H.
    + left. exists ta. subst. auto.
    + subst y. destruct (IH _ H) as [(t2' & -> & ->) | (t1' & -> & ->)].
      * left. exists t2'. auto.
      * right. exists t1'. auto.
Qed.

Lemma justRenamedTo_app (a b : list event) (p : path) :
  justRenamedTo b p -> justRenamedTo (a ++ b) p.
Proof.
  intros (t0 & src & old & new & ->). exists (a ++ t0), src, old, new.
  now rewrite app_assoc.
Qed.

Lemma listedAsFile_app (a b : list event) (p : path) :
  listedAsFile b p -> listedAsFile (a ++ b) p.
Proof.
  intros (t0 & tm & stats & -> & H). exists (a ++ t0), tm, stats.
  split; [now rewrite app_assoc | exact H].
Qed.

Lemma quiet_not_listing (t : list event) :
  Forall (fun e => isQuiet e = true) t ->
  Forall (fun e => isListing e = false) t.
Proof. apply Forall_impl. intros [] H; simpl in *; congruence. Qed.

Lemma items_not_listing (files : list path) (t : list event) :
  Forall (fun e => exists p, In p files /\ itemEvent p e) t ->
  Forall (fun e => isListing e = false) t.
Proof.
  apply Forall_impl. intros e (f & _ & H). destruct e; simpl in *;
    try reflexivity; contradiction.
Qed.

(** The directory a traversal starts on is listed first, and the first loop
    lists nothing. *)
Lemma first_listing (root p : path) (tq t1 t2 : list event) :
  Forall (fun e => isListing e = false) tq ->
  FsReaddir root :: tq = t1 ++ FsReaddir p :: t2 ->
  t1 = [] /\ p = root.
Proof.
  intros Hq H. destruct t1 as [|e t1]; simpl in H; injection H as H1 H2.
  - auto.
  - subst tq. apply Forall_elt in Hq. discriminate.
Qed.

(** A rename that returned is the last call of [renameIfMatches], followed
    by its console line. *)
Lemma renameIfMatches_renamed (p : path) (vs : list jsstring) (r : jsstring)
  (w : world) :
  exists w' res t,
    renameIfMatches p vs r w = (w', Return res)
    /\ trace w' = trace w ++ t
    /\ Forall (itemEvent p) t
    /\ (forall q, res = Some q -> justRenamedTo t q).
Proof.
  rewrite renameIfMatches_run. cbv zeta.
  pose proof (substituteLog_console MsgNameReplaced vs r (path_basename p)) as Hc.
  destruct (snd (substituteFold vs r (path_basename p))).
  - destruct (renameSync F p _ (fs w)) as [e | s];
      (do 3 eexists; split; [reflexivity|]; cbn [trace logged];
       rewrite <- app_assoc; split; [reflexivity|]; split;
       [ apply Forall_app; split;
         [now apply console_itemEvent | repeat constructor]
       | intros q Hq; try discriminate; injection Hq as <-;
         now eexists _, _, _, _ ]).
  - do 3 eexists. split; [reflexivity|]. split; [reflexivity|].
    split; [now apply console_itemEvent | discriminate].
Qed.

(** The loop over [directories], given what a recursive call does: the
    directories renamed and entered have names outside the ignore set. *)
Lemma directories_skip (vs : list jsstring) (r : jsstring)
  (recurse : path -> M unit) :
  (forall root w, exists w' o t,
      recurse root w = (w', o)
      /\ (o = Return tt \/ o = OutOfFuel)
      /\ trace w' = trace w ++ t
      /\ skipsIgnored root t) ->
  forall (dirs : list path) (w : world),
    (forall d, In d dirs -> ignoredPath d = false) ->
    exists w' o t,
      forOf dirs
        (fun dirPath' =>
           newDirPath <- renameIfMatches dirPath' vs r ;;
           recurse match newDirPath with Some p => p | None => dirPath' end) w
      = (w', o)
      /\ (o = Return tt \/ o = OutOfFuel)
      /\ trace w' = trace w ++ t
      /\ (forall t1 src dst t2,
            t = t1 ++ FsRename src dst :: t2 -> ignoredPath src = true ->
            listedAsFile t1 src)
      /\ (forall t1 p t2,
            t = t1 ++ FsReaddir p :: t2 -> ignoredPath p = true ->
            justRenamedTo t1 p).
Proof.
  intros Hrec. induction dirs as [|d dirs IH]; intros w Hd.
  - exists w, (Return tt), []. rewrite app_nil_r.
    split; [reflexivity|]. split; [now left|]. split; [reflexivity|].
    split; intros [|? ?]; discriminate.
  - cbn [forOf].
    destruct (renameIfMatches_renamed d vs r w)
      as (w1 & res & t1 & E1 & Ht1 & Hf1 & Hres).
    set (root' := match res with Some p => p | None => d end).
    destruct (Hrec root' w1) as (w2 & o2 & t2 & E2 & Ho2 & Ht2 & [R2 D2]).
    assert (Hd0 : ignoredPath d = false) by (apply Hd; now left).
    assert (Ebody : (newDirPath <- renameIfMatches d vs r ;;
                     recurse match newDirPath with Some p => p | None => d end) w
                    = (w2, o2)).
    { rewrite (bind_Return _ E1). exact E2. }
    assert (R12 : forall a src dst b,
              t1 ++ t2 = a ++ FsRename src dst :: b -> ignoredPath src = true ->
              listedAsFile a src).
    { intros a src dst b E Hig.
      apply app_split in E as [(b' & -> & _) | (a' & -> & ->)].
      - apply Forall_elt in Hf1. simpl in Hf1. congruence.
      - apply listedAsFile_app. now apply (R2 _ _ dst b). }
    assert (D12 : forall a p b,
              t1 ++ t2 = a ++ FsReaddir p :: b -> ignoredPath p = true ->
              justRenamedTo a p).
    { intros a p b E Hig.
      apply app_split in E as [(b' & -> & _) | (a' & -> & ->)].
      - apply Forall_elt in Hf1. contradiction.
      - destruct (D2 _ _ _ eq_refl Hig) as [[-> ->] | H].
        + rewrite app_nil_r. unfold root' in *.
          destruct res as [q|]; [now apply Hres | congruence].
        + now apply justRenamedTo_app. }
    destruct Ho2 as [-> | ->].
    + rewrite (bind_Return _ Ebody).
      assert (Hd' : forall d', In d' dirs -> ignoredPath d' = false)
        by (intros d' Hin; apply Hd; now right).
      destruct (IH w2 Hd') as (w3 & o3 & t3 & E3 & Ho3 & Ht3 & R3 & D3).
      exists w3, o3, ((t1 ++ t2) ++ t3). split; [exact E3|].
      split; [assumption|].
      split; [now rewrite Ht3, Ht2, Ht1, !app_assoc|]. split.
      * intros a src dst b E Hig.
        apply app_split in E as [(b' & E & _) | (a' & -> & ->)].
        -- now apply (R12 _ _ dst b').
        -- apply listedAsFile_app. now apply (R3 _ _ dst b).
      * intros a p b E Hig.
        apply app_split in E as [(b' & E & _) | (a' & -> & ->)].
        -- now apply (D12 _ _ b').
        -- apply justRenamedTo_app. now apply (D3 _ _ b).
    + rewrite (bind_OutOfFuel _ Ebody).
      exists w2, OutOfFuel, (t1 ++ t2). split; [reflexivity|].
      split; [now right|].
      split; [now rewrite Ht2, Ht1, app_assoc|]. split; assumption.
Qed.

(** The events of a traversal keep the ignore set, on a file system that
    lists file names. *)
Lemma traversal_skips (vs : list jsstring) (r : jsstring) (fuel : nat) :
  listsFileNames ->
  forall (root : path) (w : world),
  exists w' o t,
    processDirectory fuel root vs r w = (w', o)
    /\ (o = Return tt \/ o = OutOfFuel)
    /\ trace w' = trace w ++ t
    /\ skipsIgnored root t.
Proof.
  intros Hnames. induction fuel as [|fuel IH]; intros root w.
  - exists w, OutOfFuel, []. rewrite app_nil_r.
    split; [reflexivity|]. split; [now right|]. split; [reflexivity|].
    split; intros [|? ?]; discriminate.
  - cbn [processDirectory].
    pose proof (fs_readdirSync_run root w) as Erd.
    assert (Hk0 : forall tq, Forall (fun e => isQuiet e = true) tq ->
              skipsIgnored root (FsReaddir root :: tq)).
    { intros tq Hq. split.
      - intros a src dst b E _. exfalso.
        destruct a as [|e a]; [discriminate|]. injection E as _ E. subst tq.
        apply Forall_elt in Hq. discriminate.
      - intros a p b E _. left.
        apply (@first_listing _ _ _ _ _ (@quiet_not_listing _ Hq) E). }
    destruct (readdirSync F root (fs w)) as [e | items] eqn:Eitems.
    + rewrite (tryCatch_Throw _ (bind_Throw _ Erd)), console_error_run_bind,
        logged_logged.
      exists (logged w ([FsReaddir root] ++ [ConsoleError (MsgDirectoryError root e)])),
        (Return tt), [FsReaddir root; ConsoleError (MsgDirectoryError root e)].
      split; [reflexivity|]. split; [now left|]. split; [reflexivity|].
      apply Hk0. repeat constructor.
    + pose proof (Hnames _ _ _ Eitems) as Hplain.
      rewrite forallb_forall in Hplain.
      destruct (classify_events root items [] [] (logged w [FsReaddir root]))
        as (w1 & o1 & t1 & E1 & Ht1 & Hq1 & Ho1).
      cbn [trace logged] in Ht1. rewrite <- app_assoc in Ht1.
      destruct o1 as [[dirs files] | e | c |]; try contradiction.
      * destruct Ho1 as [Hd Hf].
        destruct (forOf_processFile_events files vs r w1)
          as (w2 & t2 & E2 & Ht2 & Hf2 & _).
        assert (Hd' : forall d, In d dirs -> ignoredPath d = false).
        { intros d Hin. destruct (Hd d Hin) as [[] | (item & Hi & -> & Hg)].
          rewrite ignoredPath_join; auto. }
        destruct (@directories_skip vs r
                    (fun p => processDirectory fuel p vs r) IH dirs w2 Hd')
          as (w3 & o3 & t3 & E3 & Ho3 & Ht3 & R3 & D3).
        exists w3, o3, (FsReaddir root :: t1 ++ t2 ++ t3).
        split.
        { destruct Ho3 as [-> | ->];
            [apply tryCatch_Return | apply tryCatch_OutOfFuel];
            rewrite (bind_Return _ Erd), (bind_Return _ E1); cbn [fst snd];
            rewrite (bind_Return _ E2); exact E3. }
        split; [assumption|].
        split; [rewrite Ht3, Ht2, Ht1; cbn [app]; now rewrite <- !app_assoc|].
        pose proof (@quiet_not_listing _ Hq1) as Hl1.
        pose proof (@items_not_listing files _ Hf2) as Hl2.
        change (FsReaddir root :: t1 ++ t2 ++ t3)
          with ((FsReaddir root :: t1) ++ t2 ++ t3).
        split.
        -- intros a src dst b E Hig.
           apply app_split in E as [(b' & E & _) | (a' & -> & E)].
           { exfalso. destruct a as [|e a]; [discriminate|].
             injection E as _ E. subst t1.
             apply Forall_elt in Hq1. discriminate. }
           apply app_split in E as [(b' & -> & _) | (a'' & -> & ->)].
           ++ pose proof (Forall_elt _ _ _ Hf2) as (f & Hin & Hev).
              simpl in Hev. subst f.
              destruct (Hf src Hin)
                as [[] | (item & stats & Hi & -> & Hst & _ & Hnd & Hfi)].
              exists [], (t1 ++ a'), stats.
              rewrite path_dirname_join by auto.
              split; [reflexivity|].
              split.
              { apply Forall_app. split; [exact Hl1|].
                apply Forall_app in Hl2. apply Hl2. }
              split; [apply in_or_app; now left | auto].
           ++ rewrite app_assoc. apply listedAsFile_app.
              now apply (R3 _ _ dst b).
        -- intros a p b E Hig.
           apply app_split in E as [(b' & E & _) | (a' & -> & E)].
           { left. apply (@first_listing _ _ _ _ _ Hl1 E). }
           right.
           apply app_split in E as [(b' & -> & _) | (a'' & -> & ->)].
           ++ apply Forall_elt in Hl2. discriminate.
           ++ rewrite app_assoc. apply justRenamedTo_app. now apply (D3 _ _ b).
      * erewrite tryCatch_Throw
          by (rewrite (bind_Return _ Erd); apply (bind_Throw _ E1)).
        rewrite console_error_run_bind.
        exists (logged w1 [ConsoleError (MsgDirectoryError root e)]),
          (Return tt),
          (FsReaddir root :: t1 ++ [ConsoleError (MsgDirectoryError root e)]).
        split; [reflexivity|]. split; [now left|].
        split; [cbn [trace logged]; rewrite Ht1; cbn [app];
                now rewrite <- !app_assoc|].
        apply Hk0. apply Forall_app. split; [assumption | repeat constructor].
Qed.

(* ================================================================== *)
(** * The claims about the traversal and its failures *)

(** C7 (amended): on a file system that lists file names, a directory that
    a listing finds under a name of the ignore set is put in neither work
    list, so it is not renamed and not entered under that name.  Over the
    whole traversal: a rename whose source has an ignored basename is the
    rename of a regular file of the directory listed last before it, and a
    directory that is listed under an ignored basename is either the
    directory the traversal was started on, listed first, or the destination
    of a rename that has just returned. *)
Theorem ignored_directories_are_skipped (fuel : nat) (root : path)
  (vs : list jsstring) (r : jsstring) (w : world) :
  listsFileNames ->
  (forall items dirs files w' item stats,
      readdirSync F root (fs w) = inr items ->
      forOfVars items (classifyItem root) ([], []) (logged w [FsReaddir root])
      = (w', Return (dirs, files)) ->
      In item items ->
      statSync F (path_join root item) (fs w) = inr stats ->
      isDirectory stats = true ->
      shouldIgnoreFolder item = true ->
      ~ In (path_join root item) dirs /\ ~ In (path_join root item) files)
  /\ exists t,
       trace (fst (processDirectory fuel root vs r w)) = trace w ++ t
       /\ (forall t1 src dst t2,
             t = t1 ++ FsRename src dst :: t2 -> ignoredPath src = true ->
             listedAsFile t1 src)
       /\ (forall t1 p t2,
             t = t1 ++ FsReaddir p :: t2 -> ignoredPath p = true ->
             (t1 = [] /\ p = root) \/ justRenamedTo t1 p).
Proof.
  intros Hnames. split.
  - intros items dirs files w' item stats Hrd Hrun Hin Hs Hd Hi.
    pose proof (Hnames _ _ _ Hrd) as Hplain. rewrite forallb_forall in Hplain.
    destruct (classify_events root items [] [] (logged w [FsReaddir root]))
      as (w1 & o & t & E & _ & _ & Ho).
    rewrite Hrun in E. injection E as _ <-. destruct Ho as [Hdirs Hfiles].
    split; intros Hc.
    + destruct (Hdirs _ Hc) as [[] | (i & Hi' & E & Hg)].
      apply path_join_injective in E; auto. congruence.
    + destruct (Hfiles _ Hc) as [[] | (i & st & _ & _ & _ & Hs' & Hnd & _)].
      cbn [fs logged] in Hs'. congruence.
  - destruct (traversal_skips vs r fuel Hnames root w)
      as (w' & o & t & E & _ & Ht & [R D]).
    exists t. rewrite E. auto.
Qed.

(** C9: a failure on one item is caught and the run goes on.  When reading
    the file throws, [replaceInFileContent] logs the error and returns
    [false]; when writing throws it does the same; when the rename throws,
    [renameIfMatches] logs the error and returns [null].  In each case the
    file system is left as found and the failed call was made once.  Neither
    function ever throws, the loop over the files reads every listed file
    once, in order, whatever failed before, and a traversal never throws. *)
Theorem io_failures_are_caught (p : path) (vs : list jsstring) (r : jsstring)
  (w : world) :
  (exists w' b, replaceInFileContent p vs r w = (w', Return b))
  /\ (forall e, readFileSync F p (fs w) = inl e ->
        replaceInFileContent p vs r w
        = (logged w [FsRead p; ConsoleError (MsgContentError p e)],
           Return false))
  /\ (forall text e,
        readFileSync F p (fs w) = inr text ->
        snd (substituteFold vs r text) = true ->
        writeFileSync F p (fst (substituteFold vs r text)) (fs w) = inl e ->
        replaceInFileContent p vs r w
        = (logged w
             (FsRead p :: substituteLog MsgContentReplaced vs r text
              ++ [FsWrite p (fst (substituteFold vs r text));
                  ConsoleError (MsgContentError p e)]),
           Return false))
  /\ (exists w' res, renameIfMatches p vs r w = (w', Return res))
  /\ (forall e,
        snd (substituteFold vs r (path_basename p)) = true ->
        renameSync F p
          (path_join (path_dirname p)
             (fst (substituteFold vs r (path_basename p)))) (fs w) = inl e ->
        renameIfMatches p vs r w
        = (logged w
             (substituteLog MsgNameReplaced vs r (path_basename p)
              ++ [FsRename p
                    (path_join (path_dirname p)
                       (fst (substituteFold vs r (path_basename p))));
                  ConsoleError (MsgRenameError p e)]),
           Return None))
  /\ (forall files, exists w' t,
        forOf files (fun filePath => processFile filePath vs r) w
        = (w', Return tt)
        /\ trace w' = trace w ++ t
        /\ readsOf t = files)
  /\ (forall fuel, exists w',
        processDirectory fuel p vs r w = (w', Return tt)
        \/ processDirectory fuel p vs r w = (w', OutOfFuel)).
Proof.
  split; [|split; [|split; [|split; [|split; [|split]]]]].
  - destruct (replaceInFileContent_events p vs r w) as (w' & b & t & E & _).
    now exists w', b.
  - intros e He. rewrite replaceInFileContent_run, He. reflexivity.
  - intros text e Hr Hc Hw. rewrite replaceInFileContent_run, Hr. cbv zeta.
    rewrite Hc, Hw, logged_logged. reflexivity.
  - destruct (renameIfMatches_events p vs r w) as (w' & res & t & E & _).
    now exists w', res.
  - intros e Hc Hr. rewrite renameIfMatches_run. cbv zeta.
    rewrite Hc, Hr, logged_logged. reflexivity.
  - intros files.
    destruct (forOf_processFile_events files vs r w) as (w' & t & E & Ht & _ & Hr).
    now exists w', t.
  - intros fuel.
    destruct (processDirectory_events vs r fuel p w) as (w' & o & t & E & [-> | ->] & _);
      exists w'; auto.
Qed.

(* ================================================================== *)
(** * The empty search text *)




(* ================================================================== *)
(** * Escaping, as a user of [escapeRegExp] sees it *)

Lemma escapeRegExp_app (a b : jsstring) :
  escapeRegExp (a ++ b) = escapeRegExp a ++ escapeRegExp b.
Proof. rewrite !escapeRegExp_units. apply flat_map_app. Qed.

Lemma escapeRegExp_length (a : jsstring) :
  length a <= length (escapeRegExp a) <= 2 * length a.
Proof.
  rewrite escapeRegExp_units. induction a as [|c a IH]; simpl; [lia|].
  destruct (isSyntaxCharacter c); simpl; lia.
Qed.

(** X1: the pattern built from an escaped string never fails to construct
    and is never a wildcard, a class or an anchor: at any index it matches
    exactly when the string itself starts there, the match is the string, and
    the matches of a global scan are the non-overlapping occurrences of the
    string. *)
Theorem escapeRegExp_matches_literally (s : jsstring) :
  exists r,
    RegExp (escapeRegExp s) = Some r
    /\ (forall prev text,
          matchAt r prev text
          = if isPrefix s text then Some (skipn (length s) text, []) else None)
    /\ (forall prev text rest caps,
          matchAt r prev text = Some (rest, caps) -> text = s ++ rest)
    /\ (forall text,
          String_match r text
          = if occursIn s text
            then Some (repeat s (occurrences s 0 text)) else None).
Proof.
  exists (literal s). split; [apply RegExp_escapeRegExp|].
  split; [intros; apply matchAt_literal|]. split.
  - intros prev text rest caps. rewrite matchAt_literal.
    destruct (isPrefix s text) eqn:E; [|discriminate].
    intros H. injection H as <- _. now apply isPrefix_app.
  - intros text. apply String_match_literal.
Qed.

(** X2: [escapeRegExp] puts one backslash before each of the fourteen
    special characters and copies every other code unit: it distributes over
    concatenation, it returns a string unchanged exactly when the string has
    no special character, and the result is at most twice as long. *)
Theorem escapeRegExp_shape (a b : jsstring) :
  escapeRegExp (a ++ b) = escapeRegExp a ++ escapeRegExp b
  /\ (forall c, escapeRegExp [c]
                = if isSpecial c then [backslash; c] else [c])
  /\ (escapeRegExp a = a <-> forallb (fun c => negb (isSpecial c)) a = true)
  /\ length a <= length (escapeRegExp a) <= 2 * length a.
Proof.
  split; [apply escapeRegExp_app|].
  split.
  { intros c. rewrite escapeRegExp_units, isSpecial_isSyntaxCharacter. simpl.
    destruct (isSyntaxCharacter c); reflexivity. }
  split; [|apply escapeRegExp_length].
  induction a as [|c a IH]; [split; reflexivity|].
  change (c :: a) with ([c] ++ a). rewrite escapeRegExp_app.
  rewrite escapeRegExp_units at 1. cbn [flat_map app forallb].
  rewrite isSpecial_isSyntaxCharacter.
  destruct (isSyntaxCharacter c) eqn:E; cbn [negb andb app].
  - split; [|discriminate]. intros H. injection H as _ H.
    pose proof (escapeRegExp_length a) as L.
    assert (length (c :: escapeRegExp a) = length a) by congruence.
    simpl in *. lia.
  - rewrite <- IH. split; [intros H; now injection H | intros ->; reflexivity].
Qed.

(* ================================================================== *)
(** * The variants of a phrase: how many, and where whitespace goes *)

Lemma keepFirst_length (l : list jsstring) : length (keepFirst l) <= length l.
Proof.
  induction l as [|x l IH]; simpl; [lia|].
  pose proof (filter_length_le (fun y => negb (jsstring_eqb x y)) (keepFirst l)).
  lia.
Qed.

Lemma starClass_rest_length (p : codeunit -> bool) (prev : option codeunit)
  (s : jsstring) (caps : list jsstring) (rest : jsstring) (caps' : list jsstring) :
  starClass p prev s caps (fun _ s' c => Some (s', c)) = Some (rest, caps') ->
  length rest <= length s.
Proof.
  revert prev rest caps'; induction s as [|c s IH]; intros prev rest caps'; simpl.
  - intros H. injection H as <- _. simpl. lia.
  - destruct (p c).
    + destruct (starClass p (Some c) s caps (fun _ s' c0 => Some (s', c0)))
        as [[rest' caps'']|] eqn:E.
      * intros H. injection H as <- _. apply IH in E. lia.
      * intros H. injection H as <- _. simpl. lia.
    + intros H. injection H as <- _. simpl. lia.
Qed.

(** A match of [\s+] starts with a whitespace code unit and is not empty. *)
Lemma matchAt_spaces (prev : option codeunit) (c : codeunit) (s rest : jsstring)
  (caps : list jsstring) :
  matchAt re_spaces prev (c :: s) = Some (rest, caps) ->
  isWhiteSpace c = true
  /\ exists m', consumed (c :: s) rest = c :: m'.
Proof.
  unfold matchAt, re_spaces. cbn [matchRegex].
  destruct (isWhiteSpace c); [|discriminate].
  intros H. apply starClass_rest_length in H. split; [reflexivity|].
  unfold consumed. cbn [length].
  replace (S (length s) - length rest) with (S (length s - length rest)) by lia.
  eexists. reflexivity.
Qed.

Lemma matchAt_spaces_nil (prev : option codeunit) :
  matchAt re_spaces prev [] = None.
Proof. reflexivity. Qed.

(** Replacing every run of whitespace by a text without whitespace leaves no
    whitespace. *)
Lemma scan_spaces_noSpace (d t : jsstring) :
  noSpace d = true ->
  forall skip prev,
    noSpace (flat_map (fun p => match p with
                                | Keep c => [c]
                                | Hit _ _ => d
                                end) (scan re_spaces skip prev t)) = true.
Proof.
  intros Hd. induction t as [|c t IH]; intros skip prev.
  - destruct skip; reflexivity.
  - destruct skip as [|n]; [|apply IH].
    cbn [scan].
    destruct (matchAt re_spaces prev (c :: t)) as [[rest caps]|] eqn:E.
    + destruct (@matchAt_spaces _ _ _ _ _ E) as [_ [m' ->]].
      cbn [flat_map]. unfold noSpace. rewrite forallb_app.
      apply andb_true_iff. split; [exact Hd | apply IH].
    + cbn [flat_map app]. unfold noSpace. cbn [forallb].
      apply andb_true_iff. split; [|apply IH].
      unfold matchAt, re_spaces in E. cbn [matchRegex] in E.
      destruct (isWhiteSpace c); [|reflexivity].
      exfalso. revert E. clear.
      generalize (Some c). generalize (@nil jsstring).
      induction t as [|x t IHt]; intros caps prev; simpl; [discriminate|].
      destruct (isWhiteSpace x); [|discriminate].
      destruct (starClass isWhiteSpace (Some x) t caps
                  (fun _ s' c0 => Some (s', c0))); discriminate.
Qed.

Lemma String_replace_str_noSpace (d t : jsstring) :
  noSpace d = true -> (forall m, getSubstitution d m = d) ->
  noSpace (String_replace_str re_spaces d t) = true.
Proof.
  intros Hd Hg. unfold String_replace_str, String_replace.
  rewrite (flat_map_ext _ (fun p => match p with Keep c => [c] | Hit _ _ => d end)).
  - now apply scan_spaces_noSpace.
  - intros [c | m caps]; [reflexivity | apply Hg].
Qed.

(** X4: the snake_case, kebab-case and no-space variants (the third to the
    sixth, the tenth and the eleventh form pushed) hold no whitespace,
    whatever the phrase: every run of whitespace, also a leading or a
    trailing one and also tabs and line breaks, has become the delimiter. *)
Theorem delimiter_variants_have_no_whitespace (str : jsstring) (i : nat) :
  In i [2; 3; 4; 5; 9; 10] ->
  noSpace (nth i (variantForms str) []) = true.
Proof.
  intros Hi. simpl in Hi.
  destruct Hi as [<- | [<- | [<- | [<- | [<- | [<- | []]]]]]];
    cbn [variantForms push app nth];
    apply String_replace_str_noSpace; reflexivity.
Qed.

(** On a text without whitespace, [\s+] and [\s+(.)] match nowhere. *)
Lemma scan_noSpace (r2 : option regex) (t : jsstring) :
  noSpace t = true ->
  forall prev,
    scan match r2 with
         | Some r => Seq (Plus isWhiteSpace) r
         | None => Plus isWhiteSpace
         end 0 prev t
    = map Keep t.
Proof.
  induction t as [|c t IH]; intros H prev.
  - destruct r2; reflexivity.
  - simpl in H. apply andb_true_iff in H as [Hc Ht].
    apply negb_true_iff in Hc.
    cbn [scan map]. unfold matchAt.
    destruct r2 as [r|]; cbn [matchRegex]; rewrite Hc; f_equal; now apply IH.
Qed.

Lemma String_replace_noSpace (r2 : option regex)
  (fn : jsstring -> list jsstring -> jsstring) (t : jsstring) :
  noSpace t = true ->
  String_replace match r2 with
                 | Some r => Seq (Plus isWhiteSpace) r
                 | None => Plus isWhiteSpace
                 end fn t = t.
Proof.
  intros H. unfold String_replace. rewrite scan_noSpace by assumption.
  clear. induction t as [|c t IH]; simpl; congruence.
Qed.

(** X3: a phrase has between one and eleven variants; when its uppercase
    and lowercase forms hold no whitespace (a single word), the snake, kebab,
    camel and no-space forms coincide with them, so the variants are among
    five strings: the phrase, its uppercase, its lowercase, its PascalCase
    form and its Title Case form. *)
Theorem variants_of_a_single_word (str : jsstring) :
  1 <= length (generateVariants str) <= 11
  /\ (noSpace (toUpperCase str) = true ->
      noSpace (toLowerCase str) = true ->
      incl (generateVariants str)
           [str; toUpperCase str; toLowerCase str;
            nth 7 (variantForms str) []; nth 8 (variantForms str) []]
      /\ length (generateVariants str) <= 5).
Proof.
  unfold generateVariants. rewrite Set_of_array_keepFirst. split.
  - split.
    + destruct (variantForms_head str) as [rest ->]. simpl. lia.
    + pose proof (keepFirst_length (variantForms str)) as H.
      cbn [variantForms push app length] in H. exact H.
  - intros Hu Hl.
    assert (Hincl : incl (keepFirst (variantForms str))
                      [str; toUpperCase str; toLowerCase str;
                       nth 7 (variantForms str) []; nth 8 (variantForms str) []]).
    { intros x Hx. apply (proj1 (keepFirst_In _ _)) in Hx.
      cbn [variantForms push app nth] in *.
      unfold String_replace_str in *.
      rewrite !(@String_replace_noSpace None _ _ Hl) in Hx.
      rewrite !(@String_replace_noSpace None _ _ Hu) in Hx.
      rewrite (@String_replace_noSpace (Some (Group (Class isDot))) _ _ Hl) in Hx.
      simpl in Hx. simpl. tauto. }
    split; [exact Hincl|].
    apply (NoDup_incl_length (keepFirst_NoDup _)) in Hincl. exact Hincl.
Qed.

(* ================================================================== *)
(** * One file: when it is written, where it is renamed to, in what order *)

Lemma substituteFold_absent (vs : list jsstring) (r text : jsstring) :
  (forall v, In v vs -> occursIn v text = false) ->
  substituteFold vs r text = (text, false)
  /\ forall say, substituteLog say vs r text = [].
Proof.
  unfold substituteFold. induction vs as [|v vs IH]; intros H.
  - split; reflexivity.
  - assert (Hv : occursIn v text = false) by (apply H; now left).
    destruct IH as [IH1 IH2]; [intros u Hu; apply H; now right|].
    cbn [fold_left substituteLog]. unfold substituteStep at 2. cbn [fst snd].
    rewrite (literalReplaceAll_absent _ _ _ Hv), Hv.
    rewrite (occursIn_false_occurrences _ _ Hv).
    split; [exact IH1 | intros say; apply IH2].
Qed.

(** X5: a file that holds no occurrence of any variant is read and nothing
    else: it is not written, nothing is printed, [false] is returned. *)
Theorem file_without_occurrence_is_not_written (p : path)
  (vs : list jsstring) (r content : jsstring) (w : world) :
  readFileSync F p (fs w) = inr content ->
  (forall v, In v vs -> occursIn v content = false) ->
  replaceInFileContent p vs r w = (logged w [FsRead p], Return false).
Proof.
  intros Hr Hv. rewrite replaceInFileContent_run, Hr. cbv zeta.
  destruct (substituteFold_absent vs r content Hv) as [-> Hl].
  now rewrite Hl.
Qed.

(** X6: only the basename is matched.  An item whose basename holds no
    occurrence of any variant is left alone, whatever its directories are
    called: no call to the file system, nothing printed, [null] returned. *)
Theorem item_without_occurrence_is_not_renamed (p : path)
  (vs : list jsstring) (r : jsstring) (w : world) :
  (forall v, In v vs -> occursIn v (path_basename p) = false) ->
  renameIfMatches p vs r w = (w, Return None).
Proof.
  intros Hv. rewrite renameIfMatches_run. cbv zeta.
  destruct (substituteFold_absent vs r (path_basename p) Hv) as [-> Hl].
  now rewrite Hl, logged_nil.
Qed.

Lemma writesOf_app (t1 t2 : list event) :
  writesOf (t1 ++ t2) = writesOf t1 ++ writesOf t2.
Proof. unfold writesOf. apply flat_map_app. Qed.

Lemma console_writesOf (t : list event) :
  Forall (fun e => isFsEvent e = false) t -> writesOf t = [].
Proof.
  induction 1 as [|e t He _ IH]; [reflexivity|].
  unfold writesOf in *. simpl. rewrite IH.
  destruct e; simpl in *; try discriminate; reflexivity.
Qed.

(** X7: all the variants are applied to the text in memory and the file is
    written at most once, under its own path and with the final text: once
    when some variant occurred, never otherwise.  [true] is returned exactly
    when some variant occurred and the write succeeded, and then the file
    system is the one the write produced; otherwise it is untouched. *)
Theorem file_is_written_at_most_once (p : path) (vs : list jsstring)
  (r content : jsstring) (w : world) :
  readFileSync F p (fs w) = inr content ->
  exists w' b t,
    replaceInFileContent p vs r w = (w', Return b)
    /\ trace w' = trace w ++ t
    /\ writesOf t
       = (if snd (substituteFold vs r content)
          then [(p, fst (substituteFold vs r content))] else [])
    /\ (b = true <->
        snd (substituteFold vs r content) = true
        /\ writeFileSync F p (fst (substituteFold vs r content)) (fs w)
           = inr (fs w'))
    /\ (b = false -> fs w' = fs w).
Proof.
  intros Hr. rewrite replaceInFileContent_run, Hr. cbv zeta.
  pose proof (substituteLog_console MsgContentReplaced vs r content) as Hc.
  destruct (snd (substituteFold vs r content)).
  - destruct (writeFileSync F p _ (fs w)) as [e | s] eqn:Ew;
      do 3 eexists; (split; [reflexivity|]); cbn [trace logged fs];
      rewrite <- app_assoc; (split; [reflexivity|]);
      (split; [change (FsRead p :: ?l) with ([FsRead p] ++ l);
               rewrite !writesOf_app, (console_writesOf Hc); reflexivity|]).
    + split; [split; [discriminate | intros [_ H]; discriminate]|reflexivity].
    + split; [split; auto | discriminate].
  - do 3 eexists. split; [reflexivity|]. split; [reflexivity|].
    split.
    + change (FsRead p :: ?l) with ([FsRead p] ++ l).
      rewrite writesOf_app, (console_writesOf Hc). reflexivity.
    + split; [split; [discriminate | intros [H _]; discriminate]|reflexivity].
Qed.

Lemma console_renameEvent (p : path) (t : list event) :
  Forall (fun e => isFsEvent e = false) t -> Forall (renameEvent p) t.
Proof.
  apply Forall_impl. intros [] H; simpl in *; try discriminate; exact I.
Qed.

Lemma console_contentEvent (p : path) (t : list event) :
  Forall (fun e => isFsEvent e = false) t -> Forall (contentEvent p) t.
Proof.
  apply Forall_impl. intros [] H; simpl in *; try discriminate; exact I.
Qed.

Lemma renamesOf_app (t1 t2 : list event) :
  renamesOf (t1 ++ t2) = renamesOf t1 ++ renamesOf t2.
Proof. unfold renamesOf. apply flat_map_app. Qed.

Lemma console_renamesOf (t : list event) :
  Forall (fun e => isFsEvent e = false) t -> renamesOf t = [].
Proof.
  induction 1 as [|e t He _ IH]; [reflexivity|].
  unfold renamesOf in *. simpl. rewrite IH.
  destruct e; simpl in *; try discriminate; reflexivity.
Qed.


(** X20: a rename can leave the directory.  The destination is
    [path.join] of the item's directory and the substituted name, and
    [path.join] normalises: when the substituted name is [..] (the whole
    basename was a variant and the replacement is [..]), the one call made is
    [renameSync] of the item to the parent of its directory, and that path is
    what is returned, for [processDirectory] to enter, when the call
    succeeds. *)
Theorem rename_can_leave_the_directory (p : path) (vs : list jsstring)
  (r : jsstring) (w : world) :
  snd (substituteFold vs r (path_basename p)) = true ->
  fst (substituteFold vs r (path_basename p)) = [fullStop; fullStop] ->
  exists w' res t,
    renameIfMatches p vs r w = (w', Return res)
    /\ trace w' = trace w ++ t
    /\ renamesOf t = [(p, path_dirname (path_dirname p))]
    /\ (forall q, res = Some q ->
          q = path_dirname (path_dirname p)
          /\ renameSync F p q (fs w) = inr (fs w'))
    /\ (res = None ->
        exists e, renameSync F p (path_dirname (path_dirname p)) (fs w) = inl e).
Proof.
  intros Hchanged Hname. rewrite renameIfMatches_run. cbv zeta.
  pose proof (substituteLog_console MsgNameReplaced vs r (path_basename p)) as Hc.
  rewrite Hchanged, Hname.
  change (path_join (path_dirname p) [fullStop; fullStop])
    with (path_dirname (path_dirname p)).
  destruct (renameSync F p _ (fs w)) as [e | s] eqn:Er;
    do 3 eexists; (split; [reflexivity|]); cbn [trace logged fs];
    rewrite <- app_assoc; (split; [reflexivity|]);
    (split; [rewrite renamesOf_app, (console_renamesOf Hc); reflexivity|]).
  - split; [discriminate|]. intros _. now exists e.
  - split; [|discriminate]. intros q Hq. injection Hq as <-. auto.
Qed.

Lemma rename_events_only (p : path) (vs : list jsstring) (r : jsstring)
  (w : world) :
  exists w' res t,
    renameIfMatches p vs r w = (w', Return res)
    /\ trace w' = trace w ++ t
    /\ Forall (renameEvent p) t
    /\ readsOf t = [] /\ writesOf t = [].
Proof.
  rewrite renameIfMatches_run. cbv zeta.
  pose proof (substituteLog_console MsgNameReplaced vs r (path_basename p)) as Hc.
  destruct (snd (substituteFold vs r (path_basename p))).
  - destruct (renameSync F p _ (fs w)) as [e | s];
      do 3 eexists; (split; [reflexivity|]); cbn [trace logged fs];
      rewrite <- app_assoc; (split; [reflexivity|]);
      (split; [apply Forall_app; split;
               [now apply console_renameEvent
               |repeat constructor]|]);
      rewrite readsOf_app, writesOf_app, (console_readsOf Hc),
        (console_writesOf Hc); split; reflexivity.
  - do 3 eexists. split; [reflexivity|]. split; [reflexivity|].
    split; [now apply console_renameEvent|].
    split; [now apply console_readsOf | now apply console_writesOf].
Qed.

(** X9: for one file the content comes first: every read and write of the
    content pass, made under the path the file was listed with, precedes the
    rename, and nothing is read or written after the rename. *)
Theorem content_is_processed_before_the_rename (p : path) (vs : list jsstring)
  (r : jsstring) (w : world) :
  exists w' t1 t2,
    processFile p vs r w = (w', Return tt)
    /\ trace w' = trace w ++ t1 ++ t2
    /\ Forall (contentEvent p) t1
    /\ readsOf t1 = [p]
    /\ Forall (renameEvent p) t2
    /\ readsOf t2 = [] /\ writesOf t2 = [].
Proof.
  unfold processFile.
  destruct (replaceInFileContent_events p vs r w)
    as (w1 & b & t1 & E1 & Ht1 & _ & Hr1).
  assert (Hc1 : Forall (contentEvent p) t1).
  { revert E1 Ht1. rewrite replaceInFileContent_run.
    pose proof (substituteLog_console MsgContentReplaced vs r) as Hc.
    destruct (readFileSync F p (fs w)) as [e | text].
    - intros E Ht. injection E as <- _. cbn [trace logged] in Ht.
      apply app_inv_head in Ht. subst t1. repeat constructor.
    - cbv zeta. specialize (Hc text).
      destruct (snd (substituteFold vs r text));
        [destruct (writeFileSync F p _ (fs w))|];
        intros E Ht; injection E as <- _; cbn [trace logged] in Ht;
        rewrite <- ?app_assoc in Ht; apply app_inv_head in Ht; subst t1;
        cbn [app]; constructor; try reflexivity;
        try (apply Forall_app; split; [|repeat constructor]);
        now apply console_contentEvent. }
  destruct (rename_events_only p vs r w1) as (w2 & res & t2 & E2 & Ht2 & Hf2 & Hr2 & Hw2).
  exists w2, t1, t2.
  split; [rewrite (bind_Return _ E1), (bind_Return _ E2); reflexivity|].
  split; [now rewrite Ht2, Ht1, app_assoc|]. auto.
Qed.

(* ================================================================== *)
(** * [main]: the order of the checks, and the run they let through *)

Lemma forEachIndexed_variantLines (index : nat) (vs : list jsstring) (w : world) :
  forEachIndexed index vs
    (fun variant i => console_log (MsgVariant (i + 1) variant)) w
  = (logged w (variantLines index vs), Return tt).
Proof.
  revert index w; induction vs as [|v vs IH]; intros index w.
  - simpl. unfold ret. now rewrite logged_nil.
  - cbn [forEachIndexed variantLines]. unfold bind.
    rewrite console_log_run, IH, logged_logged. reflexivity.
Qed.

(** X10: with fewer than three arguments [main] prints the usage text and
    exits with status 1 without touching the file system, whatever the
    arguments given are. *)
Theorem main_usage_on_missing_arguments (fuel : nat) (args : list jsstring)
  (w : world) :
  length args < 3 ->
  main fuel args w = (logged w [ConsoleLog MsgUsage], Exit 1).
Proof.
  intros H. apply Nat.ltb_lt in H. unfold main. rewrite H. reflexivity.
Qed.

(** The checks of [main] on three or more arguments, up to the test of the
    root. *)
Lemma main_after_checks (fuel : nat) (rootArg searchText replaceWith : jsstring)
  (more : list jsstring) (w : world) :
  truthy (trim replaceWith) = true ->
  main fuel (rootArg :: searchText :: replaceWith :: more) w
  = let rootPath := path_resolve F rootArg in
    let w1 := logged w [FsExists rootPath] in
    if existsSync F rootPath (fs w) then
      match statSync F rootPath (fs w) with
      | inl e => (logged w1 [FsStat rootPath (inl e)], Throw e)
      | inr rootStats =>
          if isDirectory rootStats then
            (processDirectory fuel rootPath (generateVariants searchText)
               replaceWith ;;
             console_log MsgCompleted)
              (logged w (mainPrelude rootPath rootStats searchText replaceWith))
          else
            (logged w1 [FsStat rootPath (inr rootStats);
                        ConsoleError (MsgRootNotDirectory rootPath)],
             Exit 1)
      end
    else (logged w1 [ConsoleError (MsgRootMissing rootPath)], Exit 1).
Proof.
  intros Hr. unfold main. cbn [length Nat.ltb Nat.leb nth]. cbv zeta.
  rewrite Hr. cbn [negb].
  unfold bind at 1. unfold ret at 1.
  unfold bind at 1. unfold ret at 1.
  unfold bind at 1. unfold fs_existsSync, fsQuery.
  fold (logged w [FsExists (path_resolve F rootArg)]).
  destruct (existsSync F (path_resolve F rootArg) (fs w)); cbn [negb];
    [|reflexivity].
  unfold bind at 1. unfold ret at 1.
  unfold bind at 1. unfold fs_statSync, fsQuery. cbn [fs logged].
  destruct (statSync F (path_resolve F rootArg) (fs w)) as [e | rootStats];
    [reflexivity|].
  destruct (isDirectory rootStats); cbn [negb].
  - unfold bind at 1. unfold ret at 1.
    unfold bind at 1. unfold console_log at 1, emit.
    unfold bind at 1. unfold console_log at 1, emit.
    unfold bind at 1. unfold console_log at 1, emit.
    unfold bind at 1. unfold console_log at 1, emit.
    unfold bind at 1. rewrite forEachIndexed_variantLines.
    unfold bind at 1. unfold console_log at 1, emit.
    unfold logged, mainPrelude. cbn [fs trace].
    rewrite <- !app_assoc. reflexivity.
  - unfold bind at 1. unfold bind at 1.
    unfold console_error, emit, process_exit. cbv beta iota.
    unfold logged. cbn [fs trace]. rewrite <- !app_assoc. reflexivity.
Qed.

(** X11: the root is checked after the replacement text and before any
    directory is listed.  With a non-blank replacement, a root that does not
    exist costs one [existsSync] and ends the process with status 1; a root
    that is not a directory costs one [existsSync] and one [statSync] and
    ends it with status 1; a [statSync] that throws is not caught.  The file
    system is untouched each time, and arguments after the third are
    ignored. *)
Theorem main_checks_the_root (fuel : nat)
  (rootArg searchText replaceWith : jsstring) (more : list jsstring) (w : world) :
  truthy (trim replaceWith) = true ->
  (existsSync F (path_resolve F rootArg) (fs w) = false ->
   main fuel (rootArg :: searchText :: replaceWith :: more) w
   = (logged w [FsExists (path_resolve F rootArg);
                ConsoleError (MsgRootMissing (path_resolve F rootArg))],
      Exit 1))
  /\ (forall rootStats,
        existsSync F (path_resolve F rootArg) (fs w) = true ->
        statSync F (path_resolve F rootArg) (fs w) = inr rootStats ->
        isDirectory rootStats = false ->
        main fuel (rootArg :: searchText :: replaceWith :: more) w
        = (logged w [FsExists (path_resolve F rootArg);
                     FsStat (path_resolve F rootArg) (inr rootStats);
                     ConsoleError (MsgRootNotDirectory (path_resolve F rootArg))],
           Exit 1))
  /\ (forall e,
        existsSync F (path_resolve F rootArg) (fs w) = true ->
        statSync F (path_resolve F rootArg) (fs w) = inl e ->
        main fuel (rootArg :: searchText :: replaceWith :: more) w
        = (logged w [FsExists (path_resolve F rootArg);
                     FsStat (path_resolve F rootArg) (inl e)],
           Throw e)).
Proof.
  intros Hr. rewrite (@main_after_checks fuel rootArg searchText replaceWith more w Hr).
  cbv zeta. split; [|split].
  - intros ->. now rewrite logged_logged.
  - intros rootStats -> -> ->. now rewrite logged_logged.
  - intros e -> ->. now rewrite logged_logged.
Qed.

(** X12: a run that passes the checks.  With a non-blank replacement and
    a root that is a directory, [main] prints the search text, the
    replacement, the root, the number of variants and the variants numbered
    from 1 in their order, all before the first directory is listed; it then
    traverses the root with the variants of the search text and the
    replacement as typed (not trimmed).  The run never throws and never
    exits: it ends by printing the completion line. *)
Theorem main_runs_the_traversal (fuel : nat)
  (rootArg searchText replaceWith : jsstring) (more : list jsstring)
  (rootStats : Stats) (w : world) :
  truthy (trim replaceWith) = true ->
  existsSync F (path_resolve F rootArg) (fs w) = true ->
  statSync F (path_resolve F rootArg) (fs w) = inr rootStats ->
  isDirectory rootStats = true ->
  main fuel (rootArg :: searchText :: replaceWith :: more) w
  = (processDirectory fuel (path_resolve F rootArg)
       (generateVariants searchText) replaceWith ;;
     console_log MsgCompleted)
      (logged w (mainPrelude (path_resolve F rootArg) rootStats
                   searchText replaceWith))
  /\ exists w' t,
       trace w' = trace w
                  ++ mainPrelude (path_resolve F rootArg) rootStats
                       searchText replaceWith
                  ++ t
       /\ (main fuel (rootArg :: searchText :: replaceWith :: more) w
           = (logged w' [ConsoleLog MsgCompleted], Return tt)
           \/ main fuel (rootArg :: searchText :: replaceWith :: more) w
              = (w', OutOfFuel)).
Proof.
  intros Hr He Hs Hd.
  rewrite (@main_after_checks fuel rootArg searchText replaceWith more w Hr).
  cbv zeta. rewrite He, Hs, Hd. split; [reflexivity|].
  destruct (processDirectory_events (generateVariants searchText) replaceWith
              fuel (path_resolve F rootArg)
              (logged w (mainPrelude (path_resolve F rootArg) rootStats
                           searchText replaceWith)))
    as (w' & o & t & E & Ho & Ht).
  exists w', t. split; [rewrite Ht; cbn [trace logged]; now rewrite app_assoc|].
  destruct Ho as [-> | ->].
  - left. now rewrite (bind_Return _ E).
  - right. now rewrite (bind_OutOfFuel _ E).
Qed.

(* ================================================================== *)
(** * One directory: listing, classification, files, then directories *)

Lemma classify_listing (dirPath : path) (items : list jsstring)
  (dirs0 files0 : list path) (w : world) :
  (forall item, In item items ->
     exists stats, statSync F (path_join dirPath item) (fs w) = inr stats) ->
  forOfVars items (classifyItem dirPath) (dirs0, files0) w
  = (logged w (statEvents dirPath items (fs w)),
     Return (dirs0 ++ listedDirectories dirPath items (fs w),
             files0 ++ listedFiles dirPath items (fs w))).
Proof.
  revert dirs0 files0 w; induction items as [|item items IH];
    intros dirs0 files0 w H.
  - simpl. unfold ret. now rewrite logged_nil, !app_nil_r.
  - cbn [forOfVars]. unfold bind. rewrite classifyItem_run. cbv zeta.
    destruct (H item (or_introl eq_refl)) as [stats Hs].
    cbn [statEvents map listedDirectories listedFiles flat_map].
    rewrite Hs.
    assert (H' : forall i, In i items ->
              exists st, statSync F (path_join dirPath i)
                           (fs (logged w [FsStat (path_join dirPath item)
                                            (inr stats)])) = inr st)
      by (intros i Hi; apply H; now right).
    destruct (isDirectory stats); [destruct (shouldIgnoreFolder item)|
      destruct (isFile stats)]; cbn [negb andb app];
      rewrite (IH _ _ _ H'), logged_logged; cbn [fs logged app];
      rewrite <- ?app_assoc; reflexivity.
Qed.

Lemma classify_failure (dirPath : path) (pre : list jsstring) (item : jsstring)
  (post : list jsstring) (e : error) (dirs0 files0 : list path) (w : world) :
  (forall i, In i pre ->
     exists stats, statSync F (path_join dirPath i) (fs w) = inr stats) ->
  statSync F (path_join dirPath item) (fs w) = inl e ->
  forOfVars (pre ++ item :: post) (classifyItem dirPath) (dirs0, files0) w
  = (logged w (statEvents dirPath (pre ++ [item]) (fs w)), Throw e).
Proof.
  revert dirs0 files0 w; induction pre as [|i pre IH];
    intros dirs0 files0 w H He.
  - cbn [app forOfVars]. unfold bind. rewrite classifyItem_run. cbv zeta.
    cbn [statEvents map]. now rewrite He.
  - cbn [app forOfVars]. unfold bind. rewrite classifyItem_run. cbv zeta.
    destruct (H i (or_introl eq_refl)) as [stats Hs].
    cbn [statEvents map]. rewrite Hs.
    match goal with
    | |- context [forOfVars _ _ ?acc _] => destruct acc as [d1 f1]
    end.
    rewrite IH.
    + rewrite logged_logged. reflexivity.
    + intros j Hj. apply H. now right.
    + exact He.
Qed.

(** X13: a directory that cannot be listed is reported and skipped.  When
    [readdirSync] throws, [processDirectory] prints the error with the
    directory's path and returns normally; it makes no other call and the
    file system is untouched. *)
Theorem unlistable_directory_is_skipped (fuel : nat) (dirPath : path)
  (vs : list jsstring) (r : jsstring) (e : error) (w : world) :
  readdirSync F dirPath (fs w) = inl e ->
  processDirectory (S fuel) dirPath vs r w
  = (logged w [FsReaddir dirPath;
               ConsoleError (MsgDirectoryError dirPath e)],
     Return tt).
Proof.
  intros He. cbn [processDirectory].
  pose proof (fs_readdirSync_run dirPath w) as Erd. rewrite He in Erd.
  rewrite (tryCatch_Throw _ (bind_Throw _ Erd)), console_error_run_bind.
  now rewrite logged_logged.
Qed.

(** X14: one entry that cannot be examined costs the whole directory.
    When [statSync] throws for a listed entry, the loop that sorts the entries
    stops there; [processDirectory] prints the error under the directory's
    path and returns normally, and none of the directory's files is read or
    renamed and none of its subdirectories is entered, not even those listed
    before the failing entry. *)
Theorem stat_failure_abandons_the_directory (fuel : nat) (dirPath : path)
  (vs : list jsstring) (r : jsstring) (pre : list jsstring) (item : jsstring)
  (post : list jsstring) (e : error) (w : world) :
  readdirSync F dirPath (fs w) = inr (pre ++ item :: post) ->
  (forall i, In i pre ->
     exists stats, statSync F (path_join dirPath i) (fs w) = inr stats) ->
  statSync F (path_join dirPath item) (fs w) = inl e ->
  processDirectory (S fuel) dirPath vs r w
  = (logged w (FsReaddir dirPath
               :: statEvents dirPath (pre ++ [item]) (fs w)
               ++ [ConsoleError (MsgDirectoryError dirPath e)]),
     Return tt).
Proof.
  intros Hd Hpre He. cbn [processDirectory].
  pose proof (fs_readdirSync_run dirPath w) as Erd. rewrite Hd in Erd.
  pose proof (@classify_failure dirPath pre item post e [] []
                (logged w [FsReaddir dirPath]) Hpre He) as Ec.
  erewrite tryCatch_Throw
    by (rewrite (bind_Return _ Erd); apply (bind_Throw _ Ec)).
  rewrite console_error_run_bind. cbn [fs logged].
  rewrite !logged_logged. reflexivity.
Qed.

(** X15: the order of the work in one directory.  When the directory can
    be listed and every entry examined, [processDirectory] first stats every
    entry in listing order, without changing anything; then processes the
    regular files, in listing order; then renames and enters the directories
    whose name is not ignored, in listing order.  Which entries are files and
    which are directories is decided once, by the [stat] results at listing
    time; an entry that is neither is skipped. *)
Theorem directory_is_processed_files_first (fuel : nat) (dirPath : path)
  (vs : list jsstring) (r : jsstring) (items : list jsstring) (w : world) :
  readdirSync F dirPath (fs w) = inr items ->
  (forall item, In item items ->
     exists stats, statSync F (path_join dirPath item) (fs w) = inr stats) ->
  processDirectory (S fuel) dirPath vs r w
  = (forOf (listedFiles dirPath items (fs w))
       (fun filePath => processFile filePath vs r) ;;
     forOf (listedDirectories dirPath items (fs w))
       (fun dirPath' =>
          newDirPath <- renameIfMatches dirPath' vs r ;;
          processDirectory fuel
            match newDirPath with Some p => p | None => dirPath' end vs r))
      (logged w (FsReaddir dirPath :: statEvents dirPath items (fs w))).
Proof.
  intros Hd Hs. cbn [processDirectory].
  pose proof (fs_readdirSync_run dirPath w) as Erd. rewrite Hd in Erd.
  pose proof (@classify_listing dirPath items [] []
                (logged w [FsReaddir dirPath]) Hs) as Ec.
  cbn [fs logged app] in Ec. rewrite logged_logged in Ec. cbn [app] in Ec.
  set (w1 := logged w (FsReaddir dirPath :: statEvents dirPath items (fs w))) in *.
  set (files := listedFiles dirPath items (fs w)) in *.
  set (dirs := listedDirectories dirPath items (fs w)) in *.
  set (rest := forOf files (fun filePath => processFile filePath vs r) ;;
               forOf dirs
                 (fun dirPath' =>
                    newDirPath <- renameIfMatches dirPath' vs r ;;
                    processDirectory fuel
                      match newDirPath with Some p => p | None => dirPath' end
                      vs r)).
  assert (Hrest : exists w' o, rest w1 = (w', o)
                               /\ (o = Return tt \/ o = OutOfFuel)).
  { unfold rest.
    destruct (forOf_processFile_events files vs r w1) as (w2 & t2 & E2 & _).
    destruct (@forOf_directories_events vs r
                (fun p => processDirectory fuel p vs r)
                (processDirectory_events vs r fuel) dirs w2)
      as (w3 & o3 & t3 & E3 & Ho3 & _).
    exists w3, o3. split; [|exact Ho3].
    rewrite (bind_Return _ E2). exact E3. }
  destruct Hrest as (w' & o & Er & Ho).
  assert (Ebody :
    (items0 <- fs_readdirSync dirPath ;;
     vars <- forOfVars items0 (classifyItem dirPath) ([], []) ;;
     forOf (snd vars) (fun filePath => processFile filePath vs r) ;;
     forOf (fst vars)
       (fun dirPath' =>
          newDirPath <- renameIfMatches dirPath' vs r ;;
          processDirectory fuel
            match newDirPath with Some p => p | None => dirPath' end
            vs r)) w = rest w1).
  { rewrite (bind_Return _ Erd), (bind_Return _ Ec). reflexivity. }
  rewrite Er in Ebody |- *.
  destruct Ho as [-> | ->];
    [apply (tryCatch_Return _ Ebody) | apply (tryCatch_OutOfFuel _ Ebody)].
Qed.


(* ================================================================== *)
(** * One variant: counting the replacements *)

Lemma literalReplaceAll_length (v sub s : jsstring) :
  forall skip, skip <= length s ->
    length (literalReplaceAll v sub skip s) + occurrences v skip s * length v + skip
    = length s + occurrences v skip s * length sub
    /\ occurrences v skip s * length sub <= length (literalReplaceAll v sub skip s).
Proof.
  induction s as [|c s IH]; intros skip Hk.
  - destruct skip as [|n]; [|simpl in Hk; lia].
    cbn [literalReplaceAll occurrences].
    destruct (isPrefix v []) eqn:E; [|simpl; lia].
    apply isPrefix_nil_r in E. subst v. simpl. lia.
  - destruct skip as [|n].
    + cbn [literalReplaceAll occurrences].
      destruct (isPrefix v (c :: s)) eqn:E.
      * destruct v as [|x v'].
        -- destruct (IH 0 (Nat.le_0_l _)) as [H1 H2].
           rewrite length_app. cbn [length] in *. lia.
        -- assert (Hl : length v' <= length s).
           { apply isPrefix_length in E. simpl in E. lia. }
           destruct (IH (length v') Hl) as [H1 H2].
           rewrite length_app. cbn [length] in *. lia.
      * destruct (IH 0 (Nat.le_0_l _)) as [H1 H2]. cbn [length] in *. lia.
    + cbn [literalReplaceAll occurrences].
      assert (Hn : n <= length s) by (simpl in Hk; lia).
      destruct (IH n Hn) as [H1 H2]. cbn [length]. lia.
Qed.

(** X17: one turn of the substitution loop replaces each occurrence once.
    For a variant [v] and the text so far, the turn prints one line per
    replacement, say n of them; the occurrences replaced do not overlap (n
    times the length of [v] fits in the text); the new text is longer by n
    times the difference in length between the case-adjusted replacement and
    [v]; and the flag is set exactly when n is not zero, and never cleared. *)
Theorem one_variant_replaces_each_occurrence_once
  (say : jsstring -> jsstring -> line) (replaceWith content : jsstring)
  (hasChanges : bool) (v : jsstring) (w : world) :
  exists n content',
    replaceVariant say replaceWith (content, hasChanges) v w
    = (logged w (repeat (ConsoleLog (say v (preserveCase v replaceWith))) n),
       Return (content', hasChanges || negb (Nat.eqb n 0)))
    /\ length content' + n * length v
       = length content + n * length (preserveCase v replaceWith)
    /\ n * length v <= length content
    /\ n <= S (length content).
Proof.
  exists (occurrences v 0 content),
    (literalReplaceAll v (preserveCase v replaceWith) 0 content).
  split.
  - rewrite replaceVariant_step. unfold substituteStep. cbn [fst snd].
    now rewrite occurrences_occursIn.
  - destruct (@literalReplaceAll_length v (preserveCase v replaceWith) content
                0 (Nat.le_0_l _)) as [H1 H2].
    split; [lia|]. split; [lia|].
    clear. generalize 0 at 1. induction content as [|c s IH]; intros skip.
    + destruct skip; simpl; [destruct (isPrefix v [])|]; lia.
    + destruct skip as [|n]; cbn [occurrences length].
      * destruct (isPrefix v (c :: s)); [destruct v|];
          match goal with |- context [occurrences ?a ?k s] =>
            specialize (IH k) end; lia.
      * specialize (IH n). lia.
Qed.

(* ================================================================== *)
(** * A traversal stays below the directory it was started on *)




















End Script.

(* ================================================================== *)
(** * ASCII text: the case mappings can be computed *)

Section AsciiText.

Variable toUpperCase : jsstring -> jsstring.
Variable toLowerCase : jsstring -> jsstring.
Variable F : FileSystem.

Hypothesis case_ascii : ascii_faithful toUpperCase toLowerCase.

Lemma toUpperCase_ascii (s : jsstring) :
  forallb isAscii s = true -> toUpperCase s = asciiUpperCase s.
Proof. intros H. now destruct (case_ascii s H). Qed.

Lemma toLowerCase_ascii (s : jsstring) :
  forallb isAscii s = true -> toLowerCase s = asciiLowerCase s.
Proof. intros H. now destruct (case_ascii s H). Qed.

Lemma preserveCase_ascii (m r : jsstring) :
  firstAscii m = true -> firstAscii r = true ->
  preserveCase toUpperCase toLowerCase m r
  = preserveCase asciiUpperCase asciiLowerCase m r.
Proof.
  intros Hm Hr. unfold preserveCase.
  destruct m as [|c m]; [reflexivity|].
  destruct r as [|d r]; [reflexivity|].
  simpl in Hm, Hr.
  cbn [isEmptyString length Nat.eqb charAt0 firstn slice1 skipn].
  rewrite !toUpperCase_ascii, !toLowerCase_ascii by (simpl; now rewrite ?Hm, ?Hr).
  reflexivity.
Qed.

Lemma substituteFold_ascii (vs : list jsstring) (r text : jsstring) :
  forallb firstAscii vs = true -> firstAscii r = true ->
  substituteFold toUpperCase toLowerCase vs r text
  = substituteFold asciiUpperCase asciiLowerCase vs r text.
Proof.
  intros Hvs Hr. unfold substituteFold. generalize (text, false).
  induction vs as [|v vs IH]; intros acc; [reflexivity|].
  simpl in Hvs. apply andb_true_iff in Hvs as [Hv Hvs].
  cbn [fold_left]. unfold substituteStep at 2 4.
  rewrite (preserveCase_ascii _ _ Hv Hr). now apply IH.
Qed.

Lemma substituteLog_ascii (say : jsstring -> jsstring -> line)
  (vs : list jsstring) (r text : jsstring) :
  forallb firstAscii vs = true -> firstAscii r = true ->
  substituteLog toUpperCase toLowerCase say vs r text
  = substituteLog asciiUpperCase asciiLowerCase say vs r text.
Proof.
  intros Hvs Hr. revert text.
  induction vs as [|v vs IH]; intros text; [reflexivity|].
  simpl in Hvs. apply andb_true_iff in Hvs as [Hv Hvs].
  cbn [substituteLog]. rewrite (preserveCase_ascii _ _ Hv Hr).
  now rewrite IH.
Qed.

Lemma String_replace_hits (r : regex)
  (fn fn' : jsstring -> list jsstring -> jsstring) (s : jsstring) :
  (forall m caps, forallb isAscii m && forallb isAscii (nth 0 caps []) = true ->
     fn m caps = fn' m caps) ->
  hitsAscii r s = true ->
  String_replace r fn s = String_replace r fn' s.
Proof.
  intros Hfn H. unfold String_replace, hitsAscii in *.
  rewrite forallb_forall in H.
  induction (scan r 0 None s) as [|p l IH]; [reflexivity|].
  cbn [flat_map]. rewrite IH by (intros x Hx; apply H; now right).
  f_equal. specialize (H p (or_introl eq_refl)).
  destruct p as [c | m caps]; [reflexivity | now apply Hfn].
Qed.

(** The variants of an ASCII phrase, computed with the ASCII mappings. *)
Lemma generateVariants_ascii (s : jsstring) :
  forallb isAscii s = true ->
  hitsAscii re_spaces_then (asciiLowerCase s) = true ->
  hitsAscii re_start_or_spaces_then (asciiLowerCase s) = true ->
  hitsAscii re_word_start s = true ->
  generateVariants toUpperCase toLowerCase s
  = generateVariants asciiUpperCase asciiLowerCase s.
Proof.
  intros Hs H1 H2 H3. unfold generateVariants, variantForms.
  rewrite (toUpperCase_ascii _ Hs), (toLowerCase_ascii _ Hs).
  rewrite (@String_replace_hits re_spaces_then
             (fun _ caps => toUpperCase (nth 0 caps []))
             (fun _ caps => asciiUpperCase (nth 0 caps []))); [
  | intros m caps H; apply andb_true_iff in H as [_ H];
    now apply toUpperCase_ascii
  | assumption ].
  rewrite (@String_replace_hits re_start_or_spaces_then
             (fun _ caps => toUpperCase (nth 0 caps []))
             (fun _ caps => asciiUpperCase (nth 0 caps []))); [
  | intros m caps H; apply andb_true_iff in H as [_ H];
    now apply toUpperCase_ascii
  | assumption ].
  rewrite (@String_replace_hits re_word_start
             (fun letter _ => toUpperCase letter)
             (fun letter _ => asciiUpperCase letter)); [
  | intros m caps H; apply andb_true_iff in H as [H _];
    now apply toUpperCase_ascii
  | assumption ].
  reflexivity.
Qed.

(* ================================================================== *)
(** * The two worked examples *)

(** C2: on the search text ["bjj video"] the code returns eleven pairwise
    distinct strings whose ninth, the Title Case form, is ["Bjj Video"]: only
    the first letter of each word is uppercased.  The README and the usage
    text of [main] list ["BJJ Video"] there; the other ten are as listed. *)
Theorem generateVariants_bjj_video :
  generateVariants toUpperCase toLowerCase (js "bjj video")
  = [js "bjj video"; js "BJJ VIDEO"; js "bjj_video"; js "BJJ_VIDEO";
     js "bjj-video"; js "BJJ-VIDEO"; js "bjjVideo"; js "BjjVideo";
     js "Bjj Video"; js "bjjvideo"; js "BJJVIDEO"]
  /\ nth 8 (generateVariants toUpperCase toLowerCase (js "bjj video")) []
     <> js "BJJ Video"
  /\ NoDup (generateVariants toUpperCase toLowerCase (js "bjj video")).
Proof.
  assert (E : generateVariants toUpperCase toLowerCase (js "bjj video")
              = generateVariants asciiUpperCase asciiLowerCase (js "bjj video"))
    by (apply generateVariants_ascii; reflexivity).
  rewrite E. split; [|split].
  - vm_compute. reflexivity.
  - vm_compute. discriminate.
  - unfold generateVariants. rewrite Set_of_array_keepFirst.
    apply keepFirst_NoDup.
Qed.

Lemma generateVariants_foo_bar :
  generateVariants toUpperCase toLowerCase (js "foo bar")
  = [js "foo bar"; js "FOO BAR"; js "foo_bar"; js "FOO_BAR";
     js "foo-bar"; js "FOO-BAR"; js "fooBar"; js "FooBar";
     js "Foo Bar"; js "foobar"; js "FOOBAR"].
Proof.
  rewrite generateVariants_ascii by reflexivity. vm_compute. reflexivity.
Qed.

(** C1 (amended): content substitution with the variants of ["foo bar"] and
    the replacement ["baz qux"] turns ["FooBar FOO_BAR foo-bar"] into
    ["Baz qux Baz qux baz qux"] and reports a change.  Every occurrence is
    replaced by the replacement phrase with only its first letter adjusted to
    the first letter of the occurrence: ["FOO_BAR"] and ["FooBar"] become
    ["Baz qux"], ["foo-bar"] becomes ["baz qux"]; the delimiter and the
    casing of the rest of the occurrence are not carried over. *)
Theorem foo_bar_round_trip (w : world F) :
  substituteAll toUpperCase toLowerCase MsgContentReplaced
    (generateVariants toUpperCase toLowerCase (js "foo bar"))
    (js "baz qux") (js "FooBar FOO_BAR foo-bar") w
  = (logged w [ConsoleLog (MsgContentReplaced (js "FOO_BAR") (js "Baz qux"));
               ConsoleLog (MsgContentReplaced (js "foo-bar") (js "baz qux"));
               ConsoleLog (MsgContentReplaced (js "FooBar") (js "Baz qux"))],
     Return (js "Baz qux Baz qux baz qux", true))
  /\ preserveCase toUpperCase toLowerCase (js "FooBar") (js "baz qux")
     = js "Baz qux"
  /\ preserveCase toUpperCase toLowerCase (js "FOO_BAR") (js "baz qux")
     = js "Baz qux"
  /\ preserveCase toUpperCase toLowerCase (js "foo-bar") (js "baz qux")
     = js "baz qux".
Proof.
  split; [|repeat split; rewrite preserveCase_ascii by reflexivity;
            vm_compute; reflexivity].
  rewrite generateVariants_foo_bar. unfold substituteAll.
  rewrite forOfVars_replaceVariant.
  fold (substituteFold toUpperCase toLowerCase
          [js "foo bar"; js "FOO BAR"; js "foo_bar"; js "FOO_BAR";
           js "foo-bar"; js "FOO-BAR"; js "fooBar"; js "FooBar";
           js "Foo Bar"; js "foobar"; js "FOOBAR"]
          (js "baz qux") (js "FooBar FOO_BAR foo-bar")).
  rewrite substituteFold_ascii, substituteLog_ascii by reflexivity.
  apply f_equal2; [apply f_equal|]; vm_compute; reflexivity.
Qed.

(* ================================================================== *)
(** * Case preservation on ASCII letters *)

Ltac ascii_cases :=
  unfold upper_cu, lower_cu, inRange, isAscii in *;
  repeat match goal with
         | H : N.ltb _ _ = true |- _ => apply N.ltb_lt in H
         end;
  repeat match goal with
         | |- context [N.leb ?a ?b] => destruct (N.leb_spec a b)
         end;
  cbn [andb negb];
  repeat match goal with
         | |- context [N.eqb ?a ?b] => destruct (N.eqb_spec a b)
         end;
  cbn [andb negb]; try reflexivity; try lia.

Lemma preserveCase_ascii_letter (c d : codeunit) (m rest : jsstring) :
  isAscii c = true -> isAscii d = true ->
  preserveCase toUpperCase toLowerCase (c :: m) (d :: rest)
  = (if inRange 65%N 90%N c then upper_cu d else lower_cu d) :: rest.
Proof.
  intros Hc Hd. rewrite preserveCase_ascii by assumption.
  unfold preserveCase.
  cbn [isEmptyString length Nat.eqb charAt0 firstn slice1 skipn truthy negb
       asciiUpperCase asciiLowerCase map jsstring_eqb andb app].
  assert (E : N.eqb c (upper_cu c) && true
              && negb (N.eqb c (lower_cu c) && true) = inRange 65%N 90%N c)
    by (clear; ascii_cases).
  rewrite E. destruct (inRange 65%N 90%N c); reflexivity.
Qed.

Lemma upper_cu_ascii (d : codeunit) : isAscii d = true -> isAscii (upper_cu d) = true.
Proof.
  intros H. unfold isAscii in *. apply N.ltb_lt in H. apply N.ltb_lt.
  unfold upper_cu, inRange.
  destruct (N.leb_spec 97%N d), (N.leb_spec d 122%N); cbn [andb]; lia.
Qed.

Lemma lower_cu_ascii (d : codeunit) : isAscii d = true -> isAscii (lower_cu d) = true.
Proof.
  intros H. unfold isAscii in *. apply N.ltb_lt in H. apply N.ltb_lt.
  unfold lower_cu, inRange.
  destruct (N.leb_spec 65%N d), (N.leb_spec d 90%N); cbn [andb]; lia.
Qed.

Lemma case_cu_absorb (d : codeunit) :
  upper_cu (upper_cu d) = upper_cu d /\ upper_cu (lower_cu d) = upper_cu d
  /\ lower_cu (upper_cu d) = lower_cu d /\ lower_cu (lower_cu d) = lower_cu d.
Proof.
  unfold upper_cu, lower_cu, inRange.
  destruct (N.leb_spec 97%N d), (N.leb_spec d 122%N), (N.leb_spec 65%N d),
    (N.leb_spec d 90%N); cbn [andb];
    repeat match goal with
           | |- context [N.leb ?a ?b] => destruct (N.leb_spec a b)
           end; cbn [andb]; repeat split; lia.
Qed.

(** X19: on ASCII text the first letter of the replacement is decided by
    the occurrence alone.  When the occurrence starts with A-Z the
    replacement starts with its first letter uppercased, and otherwise (a-z,
    a digit, punctuation) with that letter lowercased; the rest of the
    replacement is kept.  So the casing typed for the first letter of the
    replacement is discarded, and applying the rule twice changes nothing
    more. *)
Theorem replacement_first_letter_follows_the_occurrence (c d : codeunit)
  (m rest : jsstring) :
  isAscii c = true -> isAscii d = true ->
  preserveCase toUpperCase toLowerCase (c :: m) (d :: rest)
  = (if inRange 65%N 90%N c then upper_cu d else lower_cu d) :: rest
  /\ preserveCase toUpperCase toLowerCase (c :: m) (upper_cu d :: rest)
     = preserveCase toUpperCase toLowerCase (c :: m) (d :: rest)
  /\ preserveCase toUpperCase toLowerCase (c :: m) (lower_cu d :: rest)
     = preserveCase toUpperCase toLowerCase (c :: m) (d :: rest)
  /\ preserveCase toUpperCase toLowerCase (c :: m)
       (preserveCase toUpperCase toLowerCase (c :: m) (d :: rest))
     = preserveCase toUpperCase toLowerCase (c :: m) (d :: rest).
Proof.
  intros Hc Hd.
  pose proof (upper_cu_ascii _ Hd) as Hu. pose proof (lower_cu_ascii _ Hd) as Hl.
  destruct (case_cu_absorb d) as (A1 & A2 & A3 & A4).
  rewrite !(@preserveCase_ascii_letter c d _ _ Hc Hd).
  rewrite !(@preserveCase_ascii_letter c (upper_cu d) _ _ Hc Hu).
  rewrite !(@preserveCase_ascii_letter c (lower_cu d) _ _ Hc Hl).
  rewrite A1, A2, A3, A4.
  split; [reflexivity|]. split; [reflexivity|]. split; [reflexivity|].
  destruct (inRange 65%N 90%N c) eqn:E.
  - now rewrite (@preserveCase_ascii_letter c (upper_cu d) _ _ Hc Hu), E, A1.
  - now rewrite (@preserveCase_ascii_letter c (lower_cu d) _ _ Hc Hl), E, A4.
Qed.

End AsciiText.

(* ================================================================== *)
(** * The matcher and the generator on small inputs *)

Example variants_of_one_word :
  generateVariants asciiUpperCase asciiLowerCase (js "single")
  = [js "single"; js "SINGLE"; js "Single"].
Proof. vm_compute. reflexivity. Qed.

(** Runs of spaces, also a leading and a trailing one.  In the PascalCase
    pattern [^] matches at index 0 and the group then takes the leading space
    as its character, so the first word is not capitalised; in the camelCase
    pattern the trailing space has no character after it and stays. *)
Example variants_with_runs_of_spaces :
  generateVariants asciiUpperCase asciiLowerCase (js " my  old ")
  = [js " my  old "; js " MY  OLD "; js "_my_old_"; js "_MY_OLD_";
     js "-my-old-"; js "-MY-OLD-"; js "MyOld "; js "myOld";
     js " My  Old "; js "myold"; js "MYOLD"].
Proof. vm_compute. reflexivity. Qed.

Example escapeRegExp_dots_and_brackets :
  escapeRegExp (js "a.b[0]")
  = js "a" ++ [backslash] ++ js ".b" ++ [backslash] ++ js "[0" ++ [backslash]
    ++ js "]".
Proof. vm_compute. reflexivity. Qed.

(** An escaped dot matches a dot only, and matches do not overlap. *)
Example escaped_dot_is_literal :
  option_map (fun r => String_replace r (fun _ _ => js "-") (js "a.b axb"))
             (RegExp (escapeRegExp (js "a.b")))
  = Some (js "- axb")
  /\ option_map (fun r => String_match r (js "aaaaa"))
                (RegExp (escapeRegExp (js "aa")))
     = Some (Some [js "aa"; js "aa"]).
Proof. split; vm_compute; reflexivity. Qed.

Example trim_examples :
  trim (js "  a b  ") = js "a b" /\ trim (js "   ") = [].
Proof. split; vm_compute; reflexivity. Qed.

(* ================================================================== *)
(** * The claims on concrete runs *)

Lemma ascii_faithful_ascii : ascii_faithful asciiUpperCase asciiLowerCase.
Proof. intros s _. split; reflexivity. Qed.

(** C1, counterexample: on ["FooBar FOO_BAR foo-bar"] the output is
    ["Baz qux Baz qux baz qux"], not ["BazQux BAZ_QUX baz-qux"]: the
    occurrence ["FOO_BAR"] becomes ["Baz qux"], not ["BAZ_QUX"], and
    ["FooBar"] becomes ["Baz qux"], not ["BazQux"]. *)
Lemma foo_bar_round_trip_first_letter_only :
  snd (substituteAll asciiUpperCase asciiLowerCase MsgContentReplaced
         (generateVariants asciiUpperCase asciiLowerCase (js "foo bar"))
         (js "baz qux") (js "FooBar FOO_BAR foo-bar") emptyWorld)
  = Return (js "Baz qux Baz qux baz qux", true)
  /\ js "Baz qux Baz qux baz qux" <> js "BazQux BAZ_QUX baz-qux"
  /\ preserveCase asciiUpperCase asciiLowerCase (js "FOO_BAR") (js "baz qux")
     <> js "BAZ_QUX"
  /\ preserveCase asciiUpperCase asciiLowerCase (js "FooBar") (js "baz qux")
     <> js "BazQux"
  /\ preserveCase asciiUpperCase asciiLowerCase (js "foo-bar") (js "baz qux")
     <> js "baz-qux".
Proof.
  split; [vm_compute; reflexivity|].
  repeat split; vm_compute; discriminate.
Qed.

Lemma foo_bar_round_trip_witness :
  substituteAll asciiUpperCase asciiLowerCase MsgContentReplaced
    (generateVariants asciiUpperCase asciiLowerCase (js "foo bar"))
    (js "baz qux") (js "FooBar FOO_BAR foo-bar") emptyWorld
  = (logged emptyWorld
       [ConsoleLog (MsgContentReplaced (js "FOO_BAR") (js "Baz qux"));
        ConsoleLog (MsgContentReplaced (js "foo-bar") (js "baz qux"));
        ConsoleLog (MsgContentReplaced (js "FooBar") (js "Baz qux"))],
     Return (js "Baz qux Baz qux baz qux", true))
  /\ preserveCase asciiUpperCase asciiLowerCase (js "FooBar") (js "baz qux")
     = js "Baz qux"
  /\ preserveCase asciiUpperCase asciiLowerCase (js "FOO_BAR") (js "baz qux")
     = js "Baz qux"
  /\ preserveCase asciiUpperCase asciiLowerCase (js "foo-bar") (js "baz qux")
     = js "baz qux".
Proof.
  exact (foo_bar_round_trip (F := memfs) ascii_faithful_ascii emptyWorld).
Defined.

Lemma generateVariants_bjj_video_witness :
  generateVariants asciiUpperCase asciiLowerCase (js "bjj video")
  = [js "bjj video"; js "BJJ VIDEO"; js "bjj_video"; js "BJJ_VIDEO";
     js "bjj-video"; js "BJJ-VIDEO"; js "bjjVideo"; js "BjjVideo";
     js "Bjj Video"; js "bjjvideo"; js "BJJVIDEO"]
  /\ nth 8 (generateVariants asciiUpperCase asciiLowerCase (js "bjj video")) []
     <> js "BJJ Video"
  /\ NoDup (generateVariants asciiUpperCase asciiLowerCase (js "bjj video")).
Proof. exact (generateVariants_bjj_video ascii_faithful_ascii). Defined.

(** C3, counterexample: with the variants of ["foo"] and the replacement
    ["foo"], the text ["a foo b"] has one occurrence replaced, by itself: the
    flag is true and the transformed text is the input text. *)
Lemma hasChanges_true_text_unchanged :
  snd (substituteAll asciiUpperCase asciiLowerCase MsgContentReplaced
         (generateVariants asciiUpperCase asciiLowerCase (js "foo"))
         (js "foo") (js "a foo b") emptyWorld)
  = Return (js "a foo b", true)
  /\ trace (fst (substituteAll asciiUpperCase asciiLowerCase MsgContentReplaced
                   (generateVariants asciiUpperCase asciiLowerCase (js "foo"))
                   (js "foo") (js "a foo b") emptyWorld))
     = [ConsoleLog (MsgContentReplaced (js "foo") (js "foo"))]
  /\ ~ (true = true <-> js "a foo b" <> js "a foo b").
Proof.
  split; [vm_compute; reflexivity|].
  split; [vm_compute; reflexivity|].
  intros [H _]. now apply H.
Qed.

Lemma hasChanges_iff_replaced_witness :
  exists out flag,
    snd (substituteAll asciiUpperCase asciiLowerCase MsgContentReplaced
           [js "a"; js "xb"] (js "x") (js "ab") emptyWorld)
    = Return (out, flag)
    /\ (flag = true <->
        exists vs1 v vs2,
          [js "a"; js "xb"] = vs1 ++ v :: vs2
          /\ occursIn v
               (fst (substituteFold asciiUpperCase asciiLowerCase vs1
                       (js "x") (js "ab"))) = true)
    /\ (out <> js "ab" -> flag = true).
Proof.
  exact (hasChanges_iff_replaced asciiUpperCase asciiLowerCase
           MsgContentReplaced [js "a"; js "xb"] (js "x") (js "ab") emptyWorld).
Defined.

Lemma preserveCase_rule_witness :
  preserveCase asciiUpperCase asciiLowerCase (js "Foo") (js "bar") = js "Bar"
  /\ preserveCase asciiUpperCase asciiLowerCase (js "9oo") (js "Bar") = js "bar"
  /\ preserveCase asciiUpperCase asciiLowerCase (js "") (js "Bar") = js "Bar".
Proof.
  pose proof (preserveCase_rule asciiUpperCase asciiLowerCase (js "Foo") (js "bar"))
    as (_ & _ & H1 & _).
  pose proof (preserveCase_rule asciiUpperCase asciiLowerCase (js "9oo") (js "Bar"))
    as (_ & _ & H2 & _).
  pose proof (preserveCase_rule asciiUpperCase asciiLowerCase (js "") (js "Bar"))
    as (_ & H3 & _).
  split; [|split].
  - exact (proj1 (H1 70%N (js "oo") 98%N (js "ar") eq_refl eq_refl) eq_refl).
  - exact (proj2 (H2 57%N (js "oo") 66%N (js "ar") eq_refl eq_refl) eq_refl).
  - exact (H3 (or_introl eq_refl)).
Defined.

(** Variant k+1 scans what variant k wrote: ["a"] turns ["ab"] into ["xb"],
    which the next variant, ["xb"], then matches. *)
Lemma substituteAll_is_fold_witness :
  substituteAll asciiUpperCase asciiLowerCase MsgContentReplaced
    [js "a"; js "xb"] (js "x") (js "ab") emptyWorld
  = (logged emptyWorld
       [ConsoleLog (MsgContentReplaced (js "a") (js "x"));
        ConsoleLog (MsgContentReplaced (js "xb") (js "x"))],
     Return (js "x", true))
  /\ literalReplaceAll (js "aa") (js "a") 0 (js "b" ++ js "aa" ++ js "a")
     = js "b" ++ js "a" ++ literalReplaceAll (js "aa") (js "a") 0 (js "a").
Proof.
  pose proof (substituteAll_is_fold asciiUpperCase asciiLowerCase
                MsgContentReplaced [js "a"; js "xb"] (js "x") (js "ab") emptyWorld)
    as (H1 & _ & H3 & _).
  split.
  - rewrite H1. vm_compute. reflexivity.
  - apply H3; [discriminate|].
    intros i Hi. destruct i as [|i]; [reflexivity | simpl in Hi; lia].
Defined.


(** C7, counterexample: a directory named [dist] is entered when it is the
    directory the traversal is started on, and when the traversal itself has
    just renamed a directory to [dist] ([foo] with the search text ["foo"]
    and the replacement ["dist"]); [node_modules], listed beside it, is left
    alone. *)
Lemma directory_named_dist_is_entered :
  (mem_stat [js "dist"] (fs distWorld) = inr directoryStats
   /\ shouldIgnoreFolder (path_basename [js "dist"]) = true
   /\ trace (fst (processDirectory asciiUpperCase asciiLowerCase 3 [js "dist"]
                    (generateVariants asciiUpperCase asciiLowerCase (js "foo"))
                    (js "bar") distWorld))
      = [FsReaddir [js "dist"];
         FsStat [js "dist"; js "a.txt"] (inr fileStats);
         FsRead [js "dist"; js "a.txt"]])
  /\ (shouldIgnoreFolder (path_basename [js "proj"; js "dist"]) = true
      /\ trace (fst (processDirectory asciiUpperCase asciiLowerCase 3 [js "proj"]
                       (generateVariants asciiUpperCase asciiLowerCase (js "foo"))
                       (js "dist") projectWorld))
         = [FsReaddir [js "proj"];
            FsStat [js "proj"; js "foo"] (inr directoryStats);
            FsStat [js "proj"; js "node_modules"] (inr directoryStats);
            ConsoleLog (MsgNameReplaced (js "foo") (js "dist"));
            FsRename [js "proj"; js "foo"] [js "proj"; js "dist"];
            ConsoleLog (MsgRenamed (js "foo") (js "dist"));
            FsReaddir [js "proj"; js "dist"];
            FsStat [js "proj"; js "dist"; js "a.txt"] (inr fileStats);
            FsRead [js "proj"; js "dist"; js "a.txt"];
            ConsoleLog (MsgContentReplaced (js "foo") (js "dist"));
            FsWrite [js "proj"; js "dist"; js "a.txt"] (js "dist");
            ConsoleLog (MsgUpdated [js "proj"; js "dist"; js "a.txt"])]
      /\ mem_stat [js "proj"; js "dist"]
           (fs (fst (processDirectory asciiUpperCase asciiLowerCase 3 [js "proj"]
                       (generateVariants asciiUpperCase asciiLowerCase (js "foo"))
                       (js "dist") projectWorld)))
         = inr directoryStats).
Proof. repeat split; vm_compute; reflexivity. Qed.

(** The in-memory file system lists file names. *)
Lemma memfs_listsFileNames : listsFileNames memfs.
Proof.
  intros p s items H. cbn [readdirSync memfs] in H. unfold mem_readdir in H.
  destruct (mem_lookup p s) as [[c|]|]; try discriminate.
  injection H as <-. apply forallb_forall. intros x Hx.
  now apply filter_In in Hx.
Qed.

(** C7, witness: the project, searched for ["foo"] with the replacement
    ["bar"].  [node_modules] is listed and holds [foo.js]; it is not entered
    and [foo.js] is not read, while [foo] is renamed and entered. *)
Lemma ignored_directories_are_skipped_witness :
  ((forall items dirs files w' item stats,
       readdirSync memfs [js "proj"] (fs projectWorld) = inr items ->
       forOfVars items (classifyItem [js "proj"]) ([], [])
         (logged projectWorld [FsReaddir [js "proj"]])
       = (w', Return (dirs, files)) ->
       In item items ->
       statSync memfs (path_join [js "proj"] item) (fs projectWorld) = inr stats ->
       isDirectory stats = true ->
       shouldIgnoreFolder item = true ->
       ~ In (path_join [js "proj"] item) dirs
       /\ ~ In (path_join [js "proj"] item) files)
   /\ exists t,
        trace (fst (processDirectory asciiUpperCase asciiLowerCase 3 [js "proj"]
                      (generateVariants asciiUpperCase asciiLowerCase (js "foo"))
                      (js "bar") projectWorld))
        = trace projectWorld ++ t
        /\ (forall t1 src dst t2,
              t = t1 ++ FsRename src dst :: t2 -> ignoredPath src = true ->
              listedAsFile t1 src)
        /\ (forall t1 p t2,
              t = t1 ++ FsReaddir p :: t2 -> ignoredPath p = true ->
              (t1 = [] /\ p = [js "proj"]) \/ justRenamedTo t1 p))
  /\ trace (fst (processDirectory asciiUpperCase asciiLowerCase 3 [js "proj"]
                   (generateVariants asciiUpperCase asciiLowerCase (js "foo"))
                   (js "bar") projectWorld))
     = [FsReaddir [js "proj"];
        FsStat [js "proj"; js "foo"] (inr directoryStats);
        FsStat [js "proj"; js "node_modules"] (inr directoryStats);
        ConsoleLog (MsgNameReplaced (js "foo") (js "bar"));
        FsRename [js "proj"; js "foo"] [js "proj"; js "bar"];
        ConsoleLog (MsgRenamed (js "foo") (js "bar"));
        FsReaddir [js "proj"; js "bar"];
        FsStat [js "proj"; js "bar"; js "a.txt"] (inr fileStats);
        FsRead [js "proj"; js "bar"; js "a.txt"];
        ConsoleLog (MsgContentReplaced (js "foo") (js "bar"));
        FsWrite [js "proj"; js "bar"; js "a.txt"] (js "bar");
        ConsoleLog (MsgUpdated [js "proj"; js "bar"; js "a.txt"])].
Proof.
  split.
  - exact (@ignored_directories_are_skipped asciiUpperCase asciiLowerCase memfs
             3 [js "proj"]
             (generateVariants asciiUpperCase asciiLowerCase (js "foo"))
             (js "bar") projectWorld memfs_listsFileNames).
  - vm_compute. reflexivity.
Defined.

Lemma main_rejects_blank_replacement_witness :
  exists w',
    main asciiUpperCase asciiLowerCase 3 [js "proj"; js "foo"; js "  "] projectWorld
    = (w', Exit 1)
    /\ 1 <> 0
    /\ fs w' = fs projectWorld
    /\ trace w' = trace projectWorld ++ [ConsoleError MsgEmptyReplacement]
    /\ forallb isFsEvent [ConsoleError MsgEmptyReplacement] = false.
Proof.
  exact (main_rejects_blank_replacement asciiUpperCase asciiLowerCase 3
           [js "proj"; js "foo"; js "  "] projectWorld eq_refl eq_refl).
Defined.

(** A file that is not there cannot be read, a directory cannot be read as a
    file, and [foo] cannot be renamed to the [node_modules] beside it. *)
Lemma io_failures_are_caught_witness :
  replaceInFileContent asciiUpperCase asciiLowerCase
    [js "proj"; js "gone.txt"] [js "foo"] (js "bar") projectWorld
  = (logged projectWorld
       [FsRead [js "proj"; js "gone.txt"];
        ConsoleError (MsgContentError [js "proj"; js "gone.txt"] (js "ENOENT"))],
     Return false)
  /\ renameIfMatches asciiUpperCase asciiLowerCase
       [js "proj"; js "foo"] [js "foo"] (js "node_modules") projectWorld
     = (logged projectWorld
          [ConsoleLog (MsgNameReplaced (js "foo") (js "node_modules"));
           FsRename [js "proj"; js "foo"] [js "proj"; js "node_modules"];
           ConsoleError (MsgRenameError [js "proj"; js "foo"] (js "ENOTEMPTY"))],
        Return None).
Proof.
  split.
  - exact (proj1 (proj2 (io_failures_are_caught asciiUpperCase asciiLowerCase
                           [js "proj"; js "gone.txt"] [js "foo"] (js "bar")
                           projectWorld))
             (js "ENOENT") eq_refl).
  - pose proof (io_failures_are_caught asciiUpperCase asciiLowerCase
                  [js "proj"; js "foo"] [js "foo"] (js "node_modules")
                  projectWorld) as (_ & _ & _ & _ & H & _).
    rewrite (H (js "ENOTEMPTY") eq_refl eq_refl). vm_compute. reflexivity.
Defined.


(* ================================================================== *)
(** * The further properties on concrete runs *)

Lemma variants_of_a_single_word_witness :
  incl (generateVariants asciiUpperCase asciiLowerCase (js "single"))
       [js "single"; asciiUpperCase (js "single"); asciiLowerCase (js "single");
        nth 7 (variantForms asciiUpperCase asciiLowerCase (js "single")) [];
        nth 8 (variantForms asciiUpperCase asciiLowerCase (js "single")) []]
  /\ length (generateVariants asciiUpperCase asciiLowerCase (js "single")) <= 5.
Proof.
  exact (proj2 (variants_of_a_single_word asciiUpperCase asciiLowerCase
                  (js "single")) eq_refl eq_refl).
Defined.

Lemma delimiter_variants_have_no_whitespace_witness :
  noSpace (nth 2 (variantForms asciiUpperCase asciiLowerCase (js " my  old ")) [])
  = true.
Proof.
  exact (@delimiter_variants_have_no_whitespace asciiUpperCase asciiLowerCase
           (js " my  old ") 2 (or_introl eq_refl)).
Defined.

Lemma file_without_occurrence_is_not_written_witness :
  replaceInFileContent asciiUpperCase asciiLowerCase
    [js "proj"; js "foo"; js "a.txt"] [js "bar"; js "BAR"] (js "baz") projectWorld
  = (logged projectWorld [FsRead [js "proj"; js "foo"; js "a.txt"]],
     Return false).
Proof.
  apply (@file_without_occurrence_is_not_written asciiUpperCase asciiLowerCase
           memfs [js "proj"; js "foo"; js "a.txt"] [js "bar"; js "BAR"]
           (js "baz") (js "foo") projectWorld eq_refl).
  intros v [<- | [<- | []]]; reflexivity.
Defined.

(** The file [a.txt] inside the directory [foo]: its basename holds no
    ["foo"]. *)
Lemma item_without_occurrence_is_not_renamed_witness :
  renameIfMatches asciiUpperCase asciiLowerCase
    [js "proj"; js "foo"; js "a.txt"] [js "foo"; js "FOO"] (js "bar") projectWorld
  = (projectWorld, Return None).
Proof.
  apply (@item_without_occurrence_is_not_renamed asciiUpperCase asciiLowerCase
           memfs [js "proj"; js "foo"; js "a.txt"] [js "foo"; js "FOO"]
           (js "bar") projectWorld).
  intros v [<- | [<- | []]]; reflexivity.
Defined.

Lemma file_is_written_at_most_once_witness :
  exists w' b t,
    replaceInFileContent asciiUpperCase asciiLowerCase
      [js "proj"; js "foo"; js "a.txt"] [js "foo"; js "FOO"] (js "bar")
      projectWorld = (w', Return b)
    /\ trace w' = trace projectWorld ++ t
    /\ writesOf t
       = (if snd (substituteFold asciiUpperCase asciiLowerCase
                    [js "foo"; js "FOO"] (js "bar") (js "foo"))
          then [([js "proj"; js "foo"; js "a.txt"],
                 fst (substituteFold asciiUpperCase asciiLowerCase
                        [js "foo"; js "FOO"] (js "bar") (js "foo")))]
          else [])
    /\ (b = true <->
        snd (substituteFold asciiUpperCase asciiLowerCase
               [js "foo"; js "FOO"] (js "bar") (js "foo")) = true
        /\ writeFileSync memfs [js "proj"; js "foo"; js "a.txt"]
             (fst (substituteFold asciiUpperCase asciiLowerCase
                     [js "foo"; js "FOO"] (js "bar") (js "foo")))
             (fs projectWorld)
           = inr (fs w'))
    /\ (b = false -> fs w' = fs projectWorld).
Proof.
  exact (@file_is_written_at_most_once asciiUpperCase asciiLowerCase memfs
           [js "proj"; js "foo"; js "a.txt"] [js "foo"; js "FOO"] (js "bar")
           (js "foo") projectWorld eq_refl).
Defined.

Lemma main_usage_on_missing_arguments_witness :
  main asciiUpperCase asciiLowerCase 3 [js "proj"; js "foo"] projectWorld
  = (logged projectWorld [ConsoleLog MsgUsage], Exit 1).
Proof.
  apply main_usage_on_missing_arguments. simpl. lia.
Defined.

Lemma main_checks_the_root_witness :
  main asciiUpperCase asciiLowerCase 3 [js "nope"; js "foo"; js "bar"] projectWorld
  = (logged projectWorld
       [FsExists [js "nope"]; ConsoleError (MsgRootMissing [js "nope"])],
     Exit 1)
  /\ main asciiUpperCase asciiLowerCase 3
       [js "a.txt"; js "foo"; js "bar"; js "extra"]
       {| fs := [([], DirNode); ([js "a.txt"], FileNode [])] : FS memfs;
          trace := [] |}
     = ({| fs := [([], DirNode); ([js "a.txt"], FileNode [])] : FS memfs;
           trace := [FsExists [js "a.txt"];
                     FsStat [js "a.txt"] (inr fileStats);
                     ConsoleError (MsgRootNotDirectory [js "a.txt"])] |},
        Exit 1).
Proof.
  split.
  - exact (proj1 (@main_checks_the_root asciiUpperCase asciiLowerCase memfs 3
                    (js "nope") (js "foo") (js "bar") [] projectWorld eq_refl)
             eq_refl).
  - exact (proj1 (proj2 (@main_checks_the_root asciiUpperCase asciiLowerCase
                           memfs 3 (js "a.txt") (js "foo") (js "bar")
                           [js "extra"]
                           {| fs := [([], DirNode); ([js "a.txt"], FileNode [])]
                                    : FS memfs;
                              trace := [] |} eq_refl))
             fileStats eq_refl eq_refl eq_refl).
Defined.

Lemma main_runs_the_traversal_witness :
  exists w' t,
    trace w' = trace projectWorld
               ++ mainPrelude asciiUpperCase asciiLowerCase [js "proj"]
                    directoryStats (js "foo") (js "bar")
               ++ t
    /\ (main asciiUpperCase asciiLowerCase 3 [js "proj"; js "foo"; js "bar"]
          projectWorld
        = (logged w' [ConsoleLog MsgCompleted], Return tt)
        \/ main asciiUpperCase asciiLowerCase 3 [js "proj"; js "foo"; js "bar"]
             projectWorld
           = (w', OutOfFuel)).
Proof.
  exact (proj2 (@main_runs_the_traversal asciiUpperCase asciiLowerCase memfs 3
                  (js "proj") (js "foo") (js "bar") [] directoryStats
                  projectWorld eq_refl eq_refl eq_refl eq_refl)).
Defined.

Lemma unlistable_directory_is_skipped_witness :
  processDirectory asciiUpperCase asciiLowerCase 1 [js "gone"]
    [js "foo"] (js "bar") emptyWorld
  = (logged emptyWorld
       [FsReaddir [js "gone"];
        ConsoleError (MsgDirectoryError [js "gone"] (js "ENOENT"))],
     Return tt).
Proof.
  exact (@unlistable_directory_is_skipped asciiUpperCase asciiLowerCase memfs
           0 [js "gone"] [js "foo"] (js "bar") (js "ENOENT") emptyWorld eq_refl).
Defined.

(** [a.txt] is listed before the dangling link and [b.txt] after it:
    neither is read. *)
Lemma stat_failure_abandons_the_directory_witness :
  processDirectory asciiUpperCase asciiLowerCase 1 [js "proj"]
    [js "foo"] (js "bar") linkWorld
  = (logged linkWorld
       [FsReaddir [js "proj"];
        FsStat [js "proj"; js "a.txt"] (inr fileStats);
        FsStat [js "proj"; js "dangling"] (inl (js "ENOENT"));
        ConsoleError (MsgDirectoryError [js "proj"] (js "ENOENT"))],
     Return tt).
Proof.
  apply (@stat_failure_abandons_the_directory asciiUpperCase asciiLowerCase
           linkfs 0 [js "proj"] [js "foo"] (js "bar")
           [js "a.txt"] (js "dangling") [js "b.txt"] (js "ENOENT") linkWorld
           eq_refl).
  - intros i [<- | []]. exists fileStats. reflexivity.
  - reflexivity.
Defined.

Lemma directory_is_processed_files_first_witness :
  processDirectory asciiUpperCase asciiLowerCase 2 [js "proj"]
    [js "foo"] (js "bar") projectWorld
  = bind (forOf (listedFiles memfs [js "proj"] [js "foo"; js "node_modules"]
                   (fs projectWorld))
            (fun filePath =>
               processFile asciiUpperCase asciiLowerCase filePath
                 [js "foo"] (js "bar")))
      (fun _ =>
         forOf (listedDirectories memfs [js "proj"] [js "foo"; js "node_modules"]
                  (fs projectWorld))
           (fun dirPath' =>
              bind (renameIfMatches asciiUpperCase asciiLowerCase dirPath'
                      [js "foo"] (js "bar"))
                (fun newDirPath =>
                   processDirectory asciiUpperCase asciiLowerCase 1
                     match newDirPath with Some p => p | None => dirPath' end
                     [js "foo"] (js "bar"))))
      (logged projectWorld
         (FsReaddir [js "proj"]
          :: statEvents memfs [js "proj"] [js "foo"; js "node_modules"]
               (fs projectWorld)))
  /\ listedDirectories memfs [js "proj"] [js "foo"; js "node_modules"]
       (fs projectWorld)
     = [[js "proj"; js "foo"]].
Proof.
  split; [|reflexivity].
  apply (@directory_is_processed_files_first asciiUpperCase asciiLowerCase
           memfs 1 [js "proj"] [js "foo"] (js "bar")
           [js "foo"; js "node_modules"] projectWorld eq_refl).
  intros item [<- | [<- | []]]; exists directoryStats; reflexivity.
Defined.


Lemma replacement_first_letter_follows_the_occurrence_witness :
  preserveCase asciiUpperCase asciiLowerCase (js "Foo") (js "bar") = js "Bar"
  /\ preserveCase asciiUpperCase asciiLowerCase (js "foo") (js "Bar") = js "bar".
Proof.
  split.
  - exact (proj1 (@replacement_first_letter_follows_the_occurrence
                    asciiUpperCase asciiLowerCase ascii_faithful_ascii
                    70%N 98%N (js "oo") (js "ar") eq_refl eq_refl)).
  - exact (proj1 (@replacement_first_letter_follows_the_occurrence
                    asciiUpperCase asciiLowerCase ascii_faithful_ascii
                    102%N 66%N (js "oo") (js "ar") eq_refl eq_refl)).
Defined.


(** The same directory with the replacement [..]: the call made is the
    rename of [proj/foo] to the root of the disk, the parent of [proj]. *)
Lemma rename_can_leave_the_directory_witness :
  exists w' res t,
    renameIfMatches asciiUpperCase asciiLowerCase [js "proj"; js "foo"]
      (generateVariants asciiUpperCase asciiLowerCase (js "foo")) (js "..")
      projectWorld = (w', Return res)
    /\ trace w' = trace projectWorld ++ t
    /\ renamesOf t
       = [([js "proj"; js "foo"],
           path_dirname (path_dirname [js "proj"; js "foo"]))]
    /\ (forall q, res = Some q ->
          q = path_dirname (path_dirname [js "proj"; js "foo"])
          /\ renameSync memfs [js "proj"; js "foo"] q (fs projectWorld)
             = inr (fs w'))
    /\ (res = None ->
        exists e,
          renameSync memfs [js "proj"; js "foo"]
            (path_dirname (path_dirname [js "proj"; js "foo"]))
            (fs projectWorld) = inl e).
Proof.
  apply (@rename_can_leave_the_directory asciiUpperCase asciiLowerCase memfs
           [js "proj"; js "foo"]
           (generateVariants asciiUpperCase asciiLowerCase (js "foo"))
           (js "..") projectWorld); vm_compute; reflexivity.
Defined.

